(** * RealTime-CodeAi: the documentation differ, the usage store, the
      extractor caches, the documentation service and the webview panel

    A shallow embedding of the JavaScript sources.  Plain JavaScript objects
    used as dictionaries are finite maps with string keys; a [Map] is an
    association list in insertion order; asynchronous methods are cut at
    their [await]s into the part that runs at the call and the part that runs
    when the awaited work settles. *)

From Stdlib Require Import Ascii String.
From stdpp Require Import gmap strings list fin_maps pretty.

Open Scope string_scope.
Open Scope nat_scope.
Open Scope list_scope.

(** ** The JavaScript runtime the sources rely on *)

Module JS.

(** Strings are sequences of ASCII characters.  [String.prototype.trim]
    strips white space and line terminators from both ends; of those, the
    ASCII ones are TAB, LF, VT, FF, CR and SPACE. *)
Definition is_whitespace (c : ascii) : bool :=
  bool_decide (nat_of_ascii c ∈ [9; 10; 11; 12; 13; 32]).

Fixpoint trimStart (s : string) : string :=
  match s with
  | EmptyString => EmptyString
  | String c r => if is_whitespace c then trimStart r else s
  end.

Fixpoint trimEnd (s : string) : string :=
  match s with
  | EmptyString => EmptyString
  | String c r =>
      match trimEnd r with
      | EmptyString => if is_whitespace c then EmptyString else String c EmptyString
      | r' => String c r'
      end
  end.

Definition trim (s : string) : string := trimEnd (trimStart s).

(** A string is truthy when it is not empty. *)
Definition truthy_string (s : string) : bool :=
  match s with EmptyString => false | _ => true end.

Definition LF : string := String (ascii_of_nat 10) EmptyString.
Definition DQUOTE : string := String (ascii_of_nat 34) EmptyString.

(** [Array.prototype.join]. *)
Fixpoint join (sep : string) (l : list string) : string :=
  match l with
  | [] => EmptyString
  | [x] => x
  | x :: r => x +:+ sep +:+ join sep r
  end.

(** Reading [obj[key]] on a plain object walks the prototype chain, so a key
    that is not an own property may still yield a function of
    [Object.prototype].  The own properties are the finite map; the inherited
    names are those every plain object has. *)
Definition object_prototype_names : list string :=
  [ "constructor"; "__defineGetter__"; "__defineSetter__"; "hasOwnProperty";
    "__lookupGetter__"; "__lookupSetter__"; "isPrototypeOf";
    "propertyIsEnumerable"; "toString"; "valueOf"; "__proto__";
    "toLocaleString" ].

Inductive Property (V : Type) : Type :=
  | Own (v : V)
  | Inherited
  | Undefined.
Arguments Own {V} v.
Arguments Inherited {V}.
Arguments Undefined {V}.

Definition get {V} (obj : gmap string V) (key : string) : Property V :=
  match obj !! key with
  | Some v => Own v
  | None =>
      if bool_decide (key ∈ object_prototype_names) then Inherited else Undefined
  end.

(** The values stored in the dictionaries below are objects, hence truthy, and
    so is anything found on the prototype; only [undefined] is falsy. *)
Definition truthy {V} (p : Property V) : bool :=
  match p with Undefined => false | _ => true end.

(** The keys a dictionary can hold without an inherited property showing
    through a lookup of one of them. *)
Definition own_keys_only {V} (obj : gmap string V) : Prop :=
  ∀ k, k ∈ dom obj → k ∉ object_prototype_names.

Fixpoint contains_colon (s : string) : bool :=
  match s with
  | EmptyString => false
  | String c r => bool_decide (c = ":"%char) || contains_colon r
  end.

(** A [Map]: entries in insertion order, one per key.  [set] on a present key
    replaces the value where it stands, on an absent key appends;
    [keys().next().value] is the key of the first entry, [undefined] on an
    empty map, and deleting [undefined] deletes nothing. *)
Definition Map (V : Type) : Type := list (string * V).

Definition map_has {V} (m : Map V) (key : string) : bool :=
  bool_decide (key ∈ m.*1).

Fixpoint map_get {V} (m : Map V) (key : string) : option V :=
  match m with
  | [] => None
  | (k, v) :: rest => if bool_decide (k = key) then Some v else map_get rest key
  end.

Fixpoint map_set {V} (m : Map V) (key : string) (value : V) : Map V :=
  match m with
  | [] => [(key, value)]
  | (k, v) :: rest =>
      if bool_decide (k = key) then (k, value) :: rest
      else (k, v) :: map_set rest key value
  end.

Definition map_delete {V} (m : Map V) (key : option string) : Map V :=
  match key with
  | Some key => filter (λ kv, kv.1 ≠ key) m
  | None => m
  end.

Definition map_first_key {V} (m : Map V) : option string :=
  match m with
  | [] => None
  | (k, _) :: _ => Some k
  end.

Definition map_size {V} (m : Map V) : nat := length m.

(** [s.substring(0, n)]. *)
Definition prefix (n : nat) (s : string) : string := String.substring 0 n s.

(** [s.split('.').pop()]: what follows the last dot, the whole string when
    there is none. *)
Fixpoint after_last_dot_go (current : string) (s : string) : string :=
  match s with
  | EmptyString => String.rev current
  | String c r =>
      if bool_decide (c = "."%char) then after_last_dot_go EmptyString r
      else after_last_dot_go (String c current) r
  end.

Definition after_last_dot (s : string) : string := after_last_dot_go EmptyString s.

(** [String.prototype.toUpperCase], on ASCII letters. *)
Definition upper_ascii (c : ascii) : ascii :=
  let n := nat_of_ascii c in
  if bool_decide (97 ≤ n ≤ 122) then ascii_of_nat (n - 32) else c.

Fixpoint map_string (f : ascii → ascii) (s : string) : string :=
  match s with
  | EmptyString => EmptyString
  | String c r => String (f c) (map_string f r)
  end.

Definition toUpperCase : string → string := map_string upper_ascii.

End JS.

(** ** doc-differ.js *)

Module DocDiffer.

Record Source := {
  name : string;
  url : string;
  selector : string;
  contentSelector : string;
  type : string;
}.

(** [this.docSources] as the constructor sets it. *)
Definition nextjs : Source :=
  {| name := "Next.js Documentation";
     url := "https://nextjs.org/docs";
     selector := "[data-testid=" +:+ JS.DQUOTE +:+ "subheading" +:+ JS.DQUOTE +:+ "]";
     contentSelector := "p";
     type := "nextjs" |}.

Definition tailwind : Source :=
  {| name := "Tailwind CSS Documentation";
     url := "https://tailwindcss.com/docs";
     selector := "h2";
     contentSelector := "p";
     type := "tailwind" |}.

Definition docSources : list Source := [nextjs; tailwind].

(** One entry of a documentation snapshot, as [fetchLatestDocs] builds it. *)
Record Doc := {
  doc_title : string;
  doc_content : string;
  doc_source : string;
  doc_type : string;
  doc_url : string;
  doc_timestamp : string;
}.

Global Instance Doc_eq_dec : EqDecision Doc.
Proof. solve_decision. Defined.

(** An entry of [updatedDocs]: the latest entry spread, plus
    [previousContent], which is [undefined] when [existingDoc] was not an
    entry but something found on the prototype. *)
Record UpdatedDoc := {
  latest_doc : Doc;
  previousContent : option string;
}.

Record Differences := {
  newDocs : gmap string Doc;
  updatedDocs : gmap string UpdatedDoc;
  removedDocs : gmap string Doc;
  newCount : nat;
  updatedCount : nat;
  removedCount : nat;
}.

(** A documentation snapshot: a dictionary of entries every key of which is
    a source type, a colon and a title. *)
Definition is_snapshot (docs : gmap string Doc) : Prop :=
  ∀ k, k ∈ dom docs → ∃ sourceType title, k = sourceType +:+ ":" +:+ title.

(** What the scraper sees of a fetched page.  [$(source.selector)] yields the
    matched elements in document order; of each the code reads the text and
    walks the following siblings, asking of a sibling only whether it matches
    a selector and what its text is. *)
Record Element := {
  el_text : string;
  el_is : string → bool;
}.

Record Heading := {
  h_text : string;
  h_next : list Element;
}.

(** The outcome of [axios.get(source.url)] followed by [cheerio.load]:
    anything thrown inside the [try] of [fetchLatestDocs], or the page. *)
Inductive Response :=
  | Thrown
  | Page (matched : list Heading).

(** The [while] loop over the siblings: stop at the end or at the next element
    matching [source.selector], keep the trimmed text of each [p]. *)
Fixpoint paragraphs_until_next (sel : string) (sibs : list Element) : list string :=
  match sibs with
  | [] => []
  | e :: rest =>
      if el_is e sel then []
      else if el_is e "p"
           then JS.trim (el_text e) :: paragraphs_until_next sel rest
           else paragraphs_until_next sel rest
  end.

(** [$(el).next(sel).text().trim()]: the immediately following sibling, if it
    matches. *)
Definition next_matching_text (sel : string) (sibs : list Element) : string :=
  match sibs with
  | e :: _ => if el_is e sel then JS.trim (el_text e) else EmptyString
  | [] => EmptyString
  end.

Definition heading_title (h : Heading) : string := JS.trim (h_text h).

Definition heading_content (source : Source) (h : Heading) : string :=
  if bool_decide (contentSelector source = "p")
  then JS.join (JS.LF +:+ JS.LF) (paragraphs_until_next (selector source) (h_next h))
  else next_matching_text (contentSelector source) (h_next h).

Definition doc_key (source : Source) (title : string) : string :=
  type source +:+ ":" +:+ title.

(** The object literal assigned to [latestDocs[key]]; [now] is the clock
    reading [new Date().toISOString()]. *)
Definition entry_of (source : Source) (now : string) (title content : string) : Doc :=
  {| doc_title := title; doc_content := content;
     doc_source := name source; doc_type := type source;
     doc_url := url source; doc_timestamp := now |}.

(** The callback of [.each]: one heading, one possible assignment to
    [latestDocs]. *)
Definition visit_heading (source : Source) (now : string)
    (latestDocs : gmap string Doc) (h : Heading) : gmap string Doc :=
  let title := heading_title h in
  let content := heading_content source h in
  if JS.truthy_string title && JS.truthy_string content
  then <[doc_key source title := entry_of source now title content]> latestDocs
  else latestDocs.

Definition fetchLatestDocs (source : Source) (now : string) (r : Response)
    : gmap string Doc :=
  match r with
  | Page matched => foldl (visit_heading source now) ∅ matched
  | Thrown => ∅
  end.

(** [existingDoc.content]: the content of an entry, [undefined] on whatever
    the prototype supplied. *)
Definition content_of (p : JS.Property Doc) : option string :=
  match p with
  | JS.Own d => Some (doc_content d)
  | _ => None
  end.

(** The first [forEach] of [findDifferences], over the entries of
    [latestDocs]. *)
Definition classify_latest (previousDocs : gmap string Doc)
    (key : string) (latestDoc : Doc)
    (acc : gmap string Doc * gmap string UpdatedDoc)
    : gmap string Doc * gmap string UpdatedDoc :=
  let existingDoc := JS.get previousDocs key in
  if negb (JS.truthy existingDoc)
  then (<[key := latestDoc]> acc.1, acc.2)
  else if bool_decide (content_of existingDoc ≠ Some (doc_content latestDoc))
  then (acc.1, <[key := {| latest_doc := latestDoc;
                           previousContent := content_of existingDoc |}]> acc.2)
  else acc.

(** The second [forEach], over the entries of [this.previousDocs]. *)
Definition classify_previous (latestDocs : gmap string Doc)
    (key : string) (prevDoc : Doc) (removed : gmap string Doc)
    : gmap string Doc :=
  if negb (JS.truthy (JS.get latestDocs key))
  then <[key := prevDoc]> removed
  else removed.

Definition findDifferences (previousDocs latestDocs : gmap string Doc)
    : Differences :=
  let nu := map_fold (classify_latest previousDocs) (∅, ∅) latestDocs in
  let removed := map_fold (classify_previous latestDocs) ∅ previousDocs in
  {| newDocs := nu.1;
     updatedDocs := nu.2;
     removedDocs := removed;
     newCount := size nu.1;
     updatedCount := size nu.2;
     removedCount := size removed |}.

(** The differ: [this.previousDocs], and the file at [this.docsPath].  The
    file is kept as the JSON document it holds ([None]: no file, or one that
    does not parse); [JSON.stringify] and [JSON.parse] are inverse on
    snapshots, whose entries are records of strings. *)
Record State := {
  previousDocs : gmap string Doc;
  docsFile : option (gmap string Doc);
}.

Definition loadPreviousDocs (file : option (gmap string Doc)) : gmap string Doc :=
  match file with
  | Some docs => docs
  | None => ∅
  end.

(** The constructor. *)
Definition new (file : option (gmap string Doc)) : State :=
  {| previousDocs := loadPreviousDocs file; docsFile := file |}.

(** The surroundings of one run of [processDocs]: what each source's URL
    answers, the clock, and the message of the error [fs.writeFileSync]
    throws, if it throws. *)
Record World := {
  respond : string → Response;
  clock : string;
  write_error : option string;
}.

Record ProcessSuccess := {
  latestDocs : gmap string Doc;
  differences : Differences;
  processedSources : list string;
}.

Inductive ProcessResult :=
  | Success (r : ProcessSuccess)
  | Failure (error : string).

Definition sourcesToProcess (sourceTypes : list string) : list Source :=
  match sourceTypes with
  | [] => docSources
  | _ => filter (λ source, type source ∈ sourceTypes) docSources
  end.

(** [{ ...latestDocs, ...result }] for each result in turn. *)
Definition merge_results (docResults : list (gmap string Doc)) : gmap string Doc :=
  foldl (λ latestDocs result, result ∪ latestDocs) ∅ docResults.

Definition fetch_all (w : World) (sources : list Source) : gmap string Doc :=
  merge_results
    (map (λ source, fetchLatestDocs source (clock w) (respond w (url source)))
         sources).

(** [mergedDocs]: a copy of [previousDocs], the removed keys deleted, then
    every latest entry assigned. *)
Definition merge_docs (previous : gmap string Doc) (d : Differences)
    (latest : gmap string Doc) : gmap string Doc :=
  let copy := previous in
  let pruned := map_fold (λ key _ mergedDocs, delete key mergedDocs) copy (removedDocs d) in
  map_fold (λ key doc mergedDocs, <[key := doc]> mergedDocs) pruned latest.

(** The progress notification is started and not awaited; it touches nothing
    the result depends on and is left out. *)
Definition processDocs (sourceTypes : list string) (w : World) (st : State)
    : ProcessResult * State :=
  let sources := sourcesToProcess sourceTypes in
  match sources with
  | [] => (Failure "No valid documentation sources specified", st)
  | _ =>
      let latest := fetch_all w sources in
      let d := findDifferences (previousDocs st) latest in
      let mergedDocs := merge_docs (previousDocs st) d latest in
      match write_error w with
      | None =>
          (Success {| latestDocs := mergedDocs;
                      differences := d;
                      processedSources := map name sources |},
           {| previousDocs := mergedDocs; docsFile := Some mergedDocs |})
      | Some message =>
          (Failure (if JS.truthy_string message then message
                    else "Unknown error processing documentation"), st)
      end
  end.

(** [getDocsForChroma]: every stored entry under its formatted title. *)
Definition formattedTitle (doc : Doc) : string :=
  JS.toUpperCase (doc_type doc) +:+ ": " +:+ doc_title doc.

Definition getDocsForChroma (st : State) : gmap string string :=
  map_fold (λ (key : string) doc formattedDocs,
              <[formattedTitle doc := doc_content doc]> formattedDocs)
           ∅ (previousDocs st).

End DocDiffer.
(** ** storage-manager.js *)

Module StorageManager.

Record Usage := {
  lastResetDate : string;
  completions : nat;
  docRefreshes : nat;
  contextDepth : string;
}.

Record UserData := {
  plan : string;
  usage : Usage;
}.

(** The file [user-data.json]: [None] when it cannot be read or parsed.  Dates
    are the day part of [new Date().toISOString()]; every operation reads the
    clock itself and gets [today] here. *)
Definition File := option UserData.

Definition initialData (today : string) : UserData :=
  {| plan := "free";
     usage := {| lastResetDate := today; completions := 0;
                 docRefreshes := 0; contextDepth := "file" |} |}.

Definition initializeStorage (today : string) (file : File) : File :=
  match file with
  | None => Some (initialData today)
  | Some data => Some data
  end.

Definition getUserData (today : string) (file : File) : UserData :=
  match file with
  | Some data => data
  | None => initialData today
  end.

Definition saveUserData (userData : UserData) (file : File) : File :=
  Some userData.

Definition getUserPlan (today : string) (file : File) : string :=
  plan (getUserData today file).

Definition setUserPlan (newPlan : string) (today : string) (file : File) : File :=
  let userData := getUserData today file in
  saveUserData {| plan := newPlan; usage := usage userData |} file.

(** The result of [getDailyUsage]: the usage it returns, the file it leaves,
    and whether the branch that starts a new day ran. *)
Record DailyUsage := {
  returned : Usage;
  file_after : File;
  reset : bool;
}.

Definition getDailyUsage (today : string) (file : File) : DailyUsage :=
  let userData := getUserData today file in
  if bool_decide (lastResetDate (usage userData) ≠ today)
  then
    let fresh := {| lastResetDate := today; completions := 0; docRefreshes := 0;
                    contextDepth := contextDepth (usage userData) |} in
    {| returned := fresh;
       file_after := saveUserData {| plan := plan userData; usage := fresh |} file;
       reset := true |}
  else
    {| returned := usage userData; file_after := file; reset := false |}.

Definition increment (feature : string) (u : Usage) : Usage :=
  if bool_decide (feature = "completions")
  then {| lastResetDate := lastResetDate u; completions := completions u + 1;
          docRefreshes := docRefreshes u; contextDepth := contextDepth u |}
  else if bool_decide (feature = "docRefreshes")
  then {| lastResetDate := lastResetDate u; completions := completions u;
          docRefreshes := docRefreshes u + 1; contextDepth := contextDepth u |}
  else u.

Definition incrementDailyUsage (feature : string) (today : string) (file : File)
    : DailyUsage :=
  let userData := getUserData today file in
  let daily := getDailyUsage today file in
  let usage' := increment feature (returned daily) in
  {| returned := usage';
     file_after := saveUserData {| plan := plan userData; usage := usage' |}
                     (file_after daily);
     reset := reset daily |}.

Definition setContextDepth (depth : string) (today : string) (file : File) : File :=
  let userData := getUserData today file in
  let u := usage userData in
  saveUserData {| plan := plan userData;
                  usage := {| lastResetDate := lastResetDate u;
                              completions := completions u;
                              docRefreshes := docRefreshes u;
                              contextDepth := depth |} |} file.

(** The operations a caller may issue, one after the other. *)
Inductive Op :=
  | GetDailyUsage
  | IncrementDailyUsage (feature : string)
  | SetUserPlan (newPlan : string)
  | SetContextDepth (depth : string).

Global Instance Op_eq_dec : EqDecision Op.
Proof. solve_decision. Defined.

(** One operation on the day [today]: the file it leaves and whether it
    started a new day. *)
Definition step (today : string) (op : Op) (file : File) : File * bool :=
  match op with
  | GetDailyUsage =>
      let r := getDailyUsage today file in (file_after r, reset r)
  | IncrementDailyUsage feature =>
      let r := incrementDailyUsage feature today file in (file_after r, reset r)
  | SetUserPlan newPlan => (setUserPlan newPlan today file, false)
  | SetContextDepth depth => (setContextDepth depth today file, false)
  end.

(** A sequence of operations, each with the day it runs on: the final file and
    the number of times a new day was started. *)
Fixpoint run (ops : list (string * Op)) (file : File) : File * nat :=
  match ops with
  | [] => (file, 0)
  | (today, op) :: rest =>
      let '(file', did) := step today op file in
      let '(final, n) := run rest file' in
      (final, (if did then 1 else 0) + n)
  end.



End StorageManager.
(** ** paywall-manager.js *)

Module PaywallManager.

(** A daily allowance: a number, or [Infinity]. *)
Inductive Limit :=
  | Finite (n : nat)
  | Infinity.

Record Quota := {
  completionsPerDay : Limit;
  docRefreshesPerDay : Limit;
  contextDepth : string;
}.

(** [this.usageQuotas]. *)
Definition usageQuotas : gmap string Quota :=
  <["free" := {| completionsPerDay := Finite 50; docRefreshesPerDay := Finite 1;
                 contextDepth := "file" |}]>
  (<["pro" := {| completionsPerDay := Infinity; docRefreshesPerDay := Finite 24;
                 contextDepth := "project" |}]>
  (<["team" := {| completionsPerDay := Infinity; docRefreshesPerDay := Finite 24;
                  contextDepth := "workspace" |}]> ∅)).

(** [used >= limit], the limit being [undefined] when the plan's entry is
    something found on the prototype: a comparison with [undefined] is
    false. *)
Definition reached (used : nat) (limit : option Limit) : bool :=
  match limit with
  | Some (Finite n) => bool_decide (n ≤ used)
  | Some Infinity => false
  | None => false
  end.

Inductive CheckResult :=
  | Allowed
  | Denied (message : string).

(** A field of [this.usageQuotas[userPlan]]: reading it throws when the plan
    has no entry at all. *)
Definition quota_field {A} (field : Quota → A) (name : string)
    (entry : JS.Property Quota) : option A + string :=
  match entry with
  | JS.Own q => inl (Some (field q))
  | JS.Inherited => inl None
  | JS.Undefined =>
      inr ("Cannot read properties of undefined (reading '" +:+ name +:+ "')")
  end.

(** [checkAndIncrementUsage]: the answer, or the message of what is thrown,
    and the file it leaves. *)
Definition checkAndIncrementUsage (feature : string) (today : string)
    (file : StorageManager.File) : (CheckResult + string) * StorageManager.File :=
  let userPlan := StorageManager.getUserPlan today file in
  let daily := StorageManager.getDailyUsage today file in
  let dailyUsage := StorageManager.returned daily in
  let file := StorageManager.file_after daily in
  let entry := JS.get usageQuotas userPlan in
  if bool_decide (feature = "completion") then
    match quota_field completionsPerDay "completionsPerDay" entry with
    | inr thrown => (inr thrown, file)
    | inl limit =>
        if reached (StorageManager.completions dailyUsage) limit
        then (inl (Denied "You've reached your daily AI completions limit. Upgrade to Pro for unlimited completions!"),
              file)
        else (inl Allowed,
              StorageManager.file_after
                (StorageManager.incrementDailyUsage "completions" today file))
    end
  else if bool_decide (feature = "docRefresh") then
    match quota_field docRefreshesPerDay "docRefreshesPerDay" entry with
    | inr thrown => (inr thrown, file)
    | inl limit =>
        if reached (StorageManager.docRefreshes dailyUsage) limit
        then (inl (Denied "You've reached your daily documentation refresh limit. Upgrade to Pro for real-time updates!"),
              file)
        else (inl Allowed,
              StorageManager.file_after
                (StorageManager.incrementDailyUsage "docRefreshes" today file))
    end
  else if bool_decide (feature = "contextDepth") then
    match quota_field contextDepth "contextDepth" entry with
    | inr thrown => (inr thrown, file)
    | inl depth =>
        if bool_decide (depth = Some "file")
           && (bool_decide (StorageManager.contextDepth dailyUsage = "project")
               || bool_decide (StorageManager.contextDepth dailyUsage = "workspace"))
        then (inl (Denied "Project-wide context is a Pro feature. Upgrade to access more context!"),
              file)
        else (inl Allowed, file)
    end
  else (inl Allowed, file).


End PaywallManager.
(** ** context-extractor.js *)

Module ContextExtractor.

Record Context := {
  fileName : string;
  fileExtension : string;
  selectedText : string;
  surroundingCode : string;
  fullText : string;
  language : string;
}.

(** What [extractActiveEditorContext] reads of the active editor: the file
    name, the selection, the document version, and the three texts
    [document.getText] returns for the whole document, the selection and the
    range of ten lines around it. *)
Record Editor := {
  ed_fileName : string;
  ed_startLine : nat;
  ed_startCharacter : nat;
  ed_endLine : nat;
  ed_endCharacter : nat;
  ed_version : nat;
  ed_text : string;
  ed_selectedText : string;
  ed_surroundingCode : string;
  ed_languageId : string;
}.

(** A value of [cache.relevantDocs]: the documents of a query, or the combined
    result of [getContextAndDocs]. *)
Inductive Cached :=
  | Documents (docs : list string)
  | Combined (context : option Context) (docs : Cached).

Record State := {
  collection : bool;
  relevantDocs : JS.Map Cached;
  contextQueries : JS.Map Context;
  lastUpdated : option Z;
}.

(** The constructor, before [initializeCollection] settles. *)
Definition new : State :=
  {| collection := false; relevantDocs := []; contextQueries := [];
     lastUpdated := None |}.

(** [initializeCollection] swallows its errors: the collection is set when the
    client answers and left as it was otherwise. *)
Definition initializeCollection (answers : bool) (st : State) : State :=
  if answers
  then {| collection := true; relevantDocs := relevantDocs st;
          contextQueries := contextQueries st; lastUpdated := lastUpdated st |}
  else st.

Definition contextCacheKey (e : Editor) : string :=
  ed_fileName e +:+ ":" +:+ pretty (ed_startLine e) +:+ "," +:+
  pretty (ed_startCharacter e) +:+ "-" +:+ pretty (ed_endLine e) +:+ "," +:+
  pretty (ed_endCharacter e) +:+ ":" +:+ pretty (ed_version e).

(** The bounded insertion both caches use: when the size is above [limit] the
    oldest entry goes, then the new one is set. *)
Definition store {V} (limit : nat) (m : JS.Map V) (key : string) (value : V)
    : JS.Map V :=
  let m' := if bool_decide (limit < JS.map_size m)
            then JS.map_delete m (JS.map_first_key m)
            else m in
  JS.map_set m' key value.

Definition extractActiveEditorContext (editor : option Editor) (st : State)
    : option Context * State :=
  match editor with
  | None => (None, st)
  | Some e =>
      let cacheKey := contextCacheKey e in
      if JS.map_has (contextQueries st) cacheKey
      then (JS.map_get (contextQueries st) cacheKey, st)
      else
        let result := {| fileName := ed_fileName e;
                         fileExtension := JS.after_last_dot (ed_fileName e);
                         selectedText := ed_selectedText e;
                         surroundingCode := ed_surroundingCode e;
                         fullText := ed_text e;
                         language := ed_languageId e |} in
        (Some result,
         {| collection := collection st;
            relevantDocs := relevantDocs st;
            contextQueries := store 50 (contextQueries st) cacheKey result;
            lastUpdated := lastUpdated st |})
  end.

(** The surroundings of a query: whether the client answers when the
    collection has to be initialised, the clock, and what
    [collection.query] gives ([None]: it throws). *)
Record World := {
  client_answers : bool;
  now : Z;
  query_documents : option (list string);
}.

Definition queryText (context : Context) : string :=
  if JS.truthy_string (selectedText context) then selectedText context
  else JS.prefix 500 (surroundingCode context).

(** [this.cache.lastUpdated && now - this.cache.lastUpdated < 5 * 60 * 1000];
    the subtraction is of numbers, negative when the clock went back. *)
Definition fresh (st : State) (w : World) : bool :=
  match lastUpdated st with
  | Some t => bool_decide (t ≠ 0%Z) && bool_decide ((now w - t < 5 * 60 * 1000)%Z)
  | None => false
  end.

(** [findRelevantDocs] returns what it finds in the cache as it is; a combined
    result stored under the same key is handed out like any other. *)
Definition findRelevantDocs (context : Context) (maxResults : nat) (w : World)
    (st : State) : Cached * State :=
  let st := if collection st then st else initializeCollection (client_answers w) st in
  if negb (collection st) then (Documents [], st)
  else
    let query := queryText context in
    let cacheKey := JS.prefix 100 query +:+ ":" +:+ pretty maxResults in
    if JS.map_has (relevantDocs st) cacheKey && fresh st w
    then (default (Documents []) (JS.map_get (relevantDocs st) cacheKey), st)
    else
      match query_documents w with
      | Some documents =>
          (Documents documents,
           {| collection := collection st;
              relevantDocs := store 30 (relevantDocs st) cacheKey (Documents documents);
              contextQueries := contextQueries st;
              lastUpdated := lastUpdated st |})
      | None =>
          (default (Documents []) (JS.map_get (relevantDocs st) cacheKey), st)
      end.

Definition getContextAndDocs (maxResults : nat) (editor : option Editor)
    (w : World) (st : State) : Cached * State :=
  let '(context, st) := extractActiveEditorContext editor st in
  match context with
  | None => (Combined None (Documents []), st)
  | Some context =>
      let query := queryText context in
      let cacheKey := "combined:" +:+ JS.prefix 100 query +:+ ":" +:+ pretty maxResults in
      if JS.map_has (relevantDocs st) cacheKey && fresh st w
      then (default (Documents []) (JS.map_get (relevantDocs st) cacheKey), st)
      else
        let '(found, st) := findRelevantDocs context maxResults w st in
        let result := Combined (Some context) found in
        (result,
         {| collection := collection st;
            relevantDocs := store 30 (relevantDocs st) cacheKey result;
            contextQueries := contextQueries st;
            lastUpdated := lastUpdated st |})
  end.

(** [updateCollection], as far as the caches go: once the old collection is
    deleted both caches are cleared and [lastUpdated] is set, whatever happens
    to the batches afterwards. *)
Definition updateCollection (w : World) (delete_throws : bool) (st : State) : State :=
  let st := if collection st then st else initializeCollection (client_answers w) st in
  if negb (collection st) then st
  else if delete_throws then st
  else {| collection := true; relevantDocs := []; contextQueries := [];
          lastUpdated := Some (now w) |}.

Inductive Call :=
  | InitializeCollection (answers : bool)
  | ExtractActiveEditorContext (editor : option Editor)
  | FindRelevantDocs (context : Context) (maxResults : nat) (w : World)
  | GetContextAndDocs (maxResults : nat) (editor : option Editor) (w : World)
  | UpdateCollection (w : World) (delete_throws : bool).

Definition call (c : Call) (st : State) : State :=
  match c with
  | InitializeCollection answers => initializeCollection answers st
  | ExtractActiveEditorContext editor => (extractActiveEditorContext editor st).2
  | FindRelevantDocs context maxResults w => (findRelevantDocs context maxResults w st).2
  | GetContextAndDocs maxResults editor w => (getContextAndDocs maxResults editor w st).2
  | UpdateCollection w delete_throws => updateCollection w delete_throws st
  end.

Definition run (calls : list Call) (st : State) : State :=
  foldl (λ st c, call c st) st calls.

(** [updateCollection], the batches handed to [collection.add].  The entries
    of [docsData] are cut into slices of [batchSize]; an entry at index
    [index] gets the id [doc_index]. *)
Record Batch := {
  batchIds : list string;
  batchDocuments : list string;
  batchTitles : list string;
}.

Definition batchSize : nat := 100.

Definition make_batch (i : nat) (batch : list (string * string)) : Batch :=
  {| batchIds := imap (λ batchIndex _, "doc_" +:+ pretty (i + batchIndex)) batch;
     batchDocuments := batch.*2;
     batchTitles := batch.*1 |}.

(** The [for] loop from index [i] on; [fuel] bounds the number of rounds. *)
Fixpoint batches_from (fuel i : nat) (entries : list (string * string))
    : list Batch :=
  match fuel with
  | 0 => []
  | S fuel =>
      if bool_decide (i < length entries)
      then make_batch i (take batchSize (drop i entries))
           :: batches_from fuel (i + batchSize) entries
      else []
  end.

(** Each round moves on by [batchSize], so as many rounds as there are
    entries are enough. *)
Definition batches (entries : list (string * string)) : list Batch :=
  batches_from (length entries) 0 entries.

(** What the eviction keeps true of the two caches. *)
Definition bounded (st : State) : Prop :=
  JS.map_size (contextQueries st) ≤ 51 ∧ JS.map_size (relevantDocs st) ≤ 31.

End ContextExtractor.
(** ** documentation-service.js *)

Module DocumentationService.

(** What a lookup resolves to: an object with an [error] field, or a document. *)
Inductive Documentation :=
  | Failed (source : option string) (error : string)
  | Found (source url title content timestamp : string).

Record CacheEntry := {
  data : Documentation;
  timestamp : Z;
}.

Inductive Fetcher :=
  | GitHub | MDN | Npm | PyPI | StackOverflow | ReadTheDocs | SmartFetch.

(** The service: the two dictionaries, the requests its fetchers have begun,
    and the number of promises made so far, which names the next one. *)
Record State := {
  cache : gmap string CacheEntry;
  pendingRequests : gmap string nat;
  begun : list (Fetcher * string);
  promises : nat;
}.

Definition cacheTTL : Z := 3600000.

Definition new : State :=
  {| cache := ∅; pendingRequests := ∅; begun := []; promises := 0 |}.

(** An [async] function returns a promise: one already resolved with a value,
    or one that is still pending. *)
Inductive Answer :=
  | Resolved (value : Documentation)
  | Pending (promise : nat).

(** The [switch] on [type]. *)
Definition fetcher_for (type : string) : Fetcher :=
  if bool_decide (type = "github") then GitHub
  else if bool_decide (type = "mdn") then MDN
  else if bool_decide (type = "npm") then Npm
  else if bool_decide (type = "pypi") then PyPI
  else if bool_decide (type = "stackoverflow") then StackOverflow
  else if bool_decide (type = "readthedocs") then ReadTheDocs
  else SmartFetch.

(** [getDocumentation] up to its return.  [query] and [type] are [None] when
    the argument is missing; the cache key always holds a colon, so the two
    dictionary reads find own properties only.  The immediately invoked
    function runs as far as the fetcher it calls and is suspended there. *)
Definition getDocumentation (query type : option string) (now : Z) (st : State)
    : Answer * State :=
  match query with
  | None => (Resolved (Failed None "Query cannot be empty"), st)
  | Some q =>
      if negb (JS.truthy_string q) || bool_decide (JS.trim q = EmptyString)
      then (Resolved (Failed None "Query cannot be empty"), st)
      else
        let query := JS.trim q in
        let type := match type with
                    | Some t => if JS.truthy_string t then t else "auto"
                    | None => "auto"
                    end in
        let cacheKey := type +:+ ":" +:+ query in
        let hit := match cache st !! cacheKey with
                   | Some entry =>
                       if bool_decide ((now - timestamp entry < cacheTTL)%Z)
                       then Some (data entry) else None
                   | None => None
                   end in
        match hit with
        | Some value => (Resolved value, st)
        | None =>
            match pendingRequests st !! cacheKey with
            | Some promise => (Pending promise, st)
            | None =>
                (Pending (promises st),
                 {| cache := cache st;
                    pendingRequests := <[cacheKey := promises st]> (pendingRequests st);
                    begun := begun st ++ [(fetcher_for type, query)];
                    promises := S (promises st) |})
            end
        end
  end.

(** The rest of the immediately invoked function, once its fetcher settles:
    a result is cached, and in any case the pending entry is deleted. *)
Definition settle (cacheKey : string) (result : option Documentation) (now : Z)
    (st : State) : State :=
  {| cache := match result with
              | Some r => <[cacheKey := {| data := r; timestamp := now |}]> (cache st)
              | None => cache st
              end;
     pendingRequests := delete cacheKey (pendingRequests st);
     begun := begun st;
     promises := promises st |}.


End DocumentationService.

(** ** error-handler.js *)

Module ErrorHandler.

Record Handled := {
  userMessage : string;
  shouldRetry : bool;
  isFatal : bool;
}.

(** [handleError], by the [code] of what was thrown ([None] when it has
    none); the telemetry it may log changes nothing of the result. *)
Definition handleError (code : option string) : Handled :=
  {| userMessage :=
       if bool_decide (code = Some "NETWORK_ERROR")
       then "Network error. Please check your connection and try again."
       else if bool_decide (code = Some "API_LIMIT_EXCEEDED")
       then "You've reached your API usage limit. Please try again later or upgrade your plan."
       else if bool_decide (code = Some "INVALID_DOCUMENT")
       then "The document format is not supported. Please try with a different file."
       else "An error occurred. Please try again.";
     shouldRetry :=
       bool_decide (code ∈ [Some "NETWORK_ERROR"; Some "TEMPORARY_FAILURE"]);
     isFatal :=
       bool_decide (code ∈ [Some "CRITICAL_ERROR"; Some "EXTENSION_FAILURE"]) |}.

(** One call of the wrapped function. *)
Inductive Attempt (V : Type) :=
  | Returns (value : V)
  | Throws (code : option string).
Arguments Returns {V} value.
Arguments Throws {V} code.

(** What the boundary does to the window. *)
Inductive Shown :=
  | ErrorMessage (text : string)
  | WarningMessage (text item : string)
  | ReloadWindow.

(** The function [createErrorBoundary] returns.  [fn k] is what the [k]-th
    call of the wrapped function comes to, [picks k] whether the user picks
    the item offered after it; the result is what the boundary resolves to
    ([None] for [null]) with what it has shown.  A retry is a call of a new
    boundary around the same function; [fuel] bounds their number. *)
Fixpoint boundary {V} (fuel : nat) (fn : nat → Attempt V) (picks : nat → bool)
    (k : nat) : option (option V * list Shown) :=
  match fuel with
  | 0 => None
  | S fuel =>
      match fn k with
      | Returns value => Some (Some value, [])
      | Throws code =>
          let h := handleError code in
          if isFatal h then
            Some (None,
                  [ErrorMessage (userMessage h +:+ " The extension needs to be reloaded.");
                   WarningMessage (userMessage h) "Reload Window"]
                  ++ (if picks k then [ReloadWindow] else []))
          else if shouldRetry h && picks k then
            match boundary fuel fn picks (S k) with
            | Some (result, shown) =>
                Some (result,
                      ErrorMessage (userMessage h)
                      :: WarningMessage (userMessage h) "Retry" :: shown)
            | None => None
            end
          else
            Some (None,
                  ErrorMessage (userMessage h)
                  :: (if shouldRetry h
                      then [WarningMessage (userMessage h) "Retry"] else []))
      end
  end.

End ErrorHandler.
(** ** webview-panel.js *)

Module WebviewPanel.

Record ChatMessage := {
  role : string;
  content : string;
}.

Record Summary := {
  totalNewDocs : nat;
  totalUpdatedDocs : nat;
  totalRemovedDocs : nat;
}.

(** The objects handed to [webview.postMessage], by their [command]. *)
Inductive Message :=
  | AiResponse (text status : string) (isMarkdown : bool)
  | RefreshStatus (status : string) (message : option string)
      (isRefreshing : option bool) (summary : option Summary).

(** An invocation of a handler that has reached an [await] and waits there. *)
Inductive Invocation :=
  | AiQuery (query : string)
  | RefreshDocs.

(** The panel object.  [panel] tells whether [this.panel] is set ([null] until
    [createOrShow], [null] again after [dispose]); [posted] is everything the
    webview has been sent; [suspended] are the handler invocations waiting at
    an [await]. *)
Record State := {
  panel : bool;
  isProcessing : bool;
  messageHistory : list ChatMessage;
  posted : list Message;
  suspended : list Invocation;
}.

(** The constructor. *)
Definition new : State :=
  {| panel := false; isProcessing := false; messageHistory := [];
     posted := []; suspended := [] |}.

Definition set_panel (b : bool) (st : State) : State :=
  {| panel := b; isProcessing := isProcessing st;
     messageHistory := messageHistory st; posted := posted st;
     suspended := suspended st |}.

Definition set_isProcessing (b : bool) (st : State) : State :=
  {| panel := panel st; isProcessing := b;
     messageHistory := messageHistory st; posted := posted st;
     suspended := suspended st |}.

Definition push_history (m : ChatMessage) (st : State) : State :=
  {| panel := panel st; isProcessing := isProcessing st;
     messageHistory := messageHistory st ++ [m]; posted := posted st;
     suspended := suspended st |}.

Definition push_posted (m : Message) (st : State) : State :=
  {| panel := panel st; isProcessing := isProcessing st;
     messageHistory := messageHistory st; posted := posted st ++ [m];
     suspended := suspended st |}.

Definition set_suspended (l : list Invocation) (st : State) : State :=
  {| panel := panel st; isProcessing := isProcessing st;
     messageHistory := messageHistory st; posted := posted st;
     suspended := l |}.

(** Handler code: it reads and writes the panel object and may throw; what is
    thrown is kept as the error's [message]. *)
Definition M (A : Type) : Type := State → (A + string) * State.

Global Instance M_ret : MRet M := λ A a st, (inl a, st).

Global Instance M_bind : MBind M := λ A B f m st,
  match m st with
  | (inl a, st') => f a st'
  | (inr e, st') => (inr e, st')
  end.

Definition throw {A} (message : string) : M A := λ st, (inr message, st).

Definition read {A} (field : State → A) : M A := λ st, (inl (field st), st).

Definition modify (f : State → State) : M unit := λ st, (inl tt, f st).

(** [try { body } catch (error) { handler } finally { final }]: the handler
    runs on what the body throws, [final] runs in every case, and what the
    handler throws is thrown on after it. *)
Definition try_catch_finally (body : M unit) (handler : string → M unit)
    (final : State → State) : M unit := λ st,
  match body st with
  | (inl tt, st') => (inl tt, final st')
  | (inr e, st') =>
      match handler e st' with
      | (r, st'') => (r, final st'')
      end
  end.

(** [this.panel.webview.postMessage(m)]: a [TypeError] when [this.panel] is
    [null]. *)
Definition postMessage (m : Message) : M unit :=
  present ← read panel;
  if present : bool then modify (push_posted m)
  else throw "Cannot read properties of null (reading 'webview')".

Inductive Begun := Rejected | Started.

(** [handleAiQuery] from its call to the [try]: everything before the first
    [await]. *)
Definition handleAiQuery_begin (query : string) : M Begun :=
  processing ← read isProcessing;
  if processing : bool then
    postMessage (AiResponse
      "I'm still processing your previous request. Please wait a moment..."
      "info" false);;
    mret Rejected
  else
    modify (set_isProcessing true);;
    modify (push_history {| role := "user"; content := query |});;
    postMessage (AiResponse "Processing your query..." "processing" false);;
    mret Started.

(** What the awaited extractor calls and the response generators come to: a
    response, or something thrown. *)
Inductive AiOutcome :=
  | Responded (response : string)
  | Raised (message : string).

(** The [try], [catch] and [finally] of [handleAiQuery]. *)
Definition handleAiQuery_resume (o : AiOutcome) : M unit :=
  try_catch_finally
    (match o with
     | Responded response =>
         modify (push_history {| role := "assistant"; content := response |});;
         postMessage (AiResponse response "complete" true)
     | Raised message => throw message
     end)
    (λ message,
       postMessage (AiResponse
         ("I encountered an error while processing your request: " +:+ message
          +:+ ". Please try again.") "error" false))
    (set_isProcessing false).

Definition handleRefreshDocs_begin : M Begun :=
  processing ← read isProcessing;
  if processing : bool then
    postMessage (RefreshStatus "error"
      (Some "Already processing a request. Please wait.") None None);;
    mret Rejected
  else
    modify (set_isProcessing true);;
    postMessage (RefreshStatus "Refreshing documentation..." None (Some true) None);;
    mret Started.

Record UpdateResult := {
  success : bool;
  error : option string;
}.

(** What the differ and the extractor give a refresh: the result of
    [processDocs], what [getDocsForChroma] throws if it throws, and the
    result of [updateCollection]. *)
Record RefreshOutcome := {
  processResult : DocDiffer.ProcessResult;
  chroma_throws : option string;
  updateResult : UpdateResult;
}.

Definition or_else (message : option string) (fallback : string) : string :=
  match message with
  | Some m => if JS.truthy_string m then m else fallback
  | None => fallback
  end.

Definition refreshed_status (d : DocDiffer.Differences) : string :=
  "Documentation refreshed! New: " +:+ pretty (DocDiffer.newCount d)
  +:+ ", Updated: " +:+ pretty (DocDiffer.updatedCount d)
  +:+ ", Removed: " +:+ pretty (DocDiffer.removedCount d).

Definition refreshed_text (d : DocDiffer.Differences) : string :=
  "## Documentation Updated" +:+ JS.LF +:+ JS.LF
  +:+ "I've refreshed the documentation database:" +:+ JS.LF
  +:+ "- " +:+ pretty (DocDiffer.newCount d) +:+ " new documents added" +:+ JS.LF
  +:+ "- " +:+ pretty (DocDiffer.updatedCount d) +:+ " documents updated" +:+ JS.LF
  +:+ "- " +:+ pretty (DocDiffer.removedCount d) +:+ " documents removed" +:+ JS.LF
  +:+ JS.LF
  +:+ "You now have access to the latest Next.js and Tailwind CSS documentation!".

Definition handleRefreshDocs_resume (o : RefreshOutcome) : M unit :=
  try_catch_finally
    (match processResult o with
     | DocDiffer.Failure e =>
         throw (or_else (Some e) "Failed to process documentation")
     | DocDiffer.Success r =>
         match chroma_throws o with
         | Some message => throw message
         | None =>
             if negb (success (updateResult o))
             then throw (or_else (error (updateResult o))
                                 "Failed to update vector database")
             else
               let d := DocDiffer.differences r in
               postMessage (RefreshStatus (refreshed_status d) None (Some false)
                 (Some {| totalNewDocs := DocDiffer.newCount d;
                          totalUpdatedDocs := DocDiffer.updatedCount d;
                          totalRemovedDocs := DocDiffer.removedCount d |}));;
               postMessage (AiResponse (refreshed_text d) "info" true)
         end
     end)
    (λ message,
       postMessage (RefreshStatus ("Error: " +:+ message) None (Some false) None);;
       postMessage (AiResponse
         ("I encountered an error while refreshing the documentation: "
          +:+ message +:+ ". Please try again later.") "error" false))
    (set_isProcessing false).

(** What happens to a panel object, one thing at a time: a handler is called
    and runs to its first [await] (the promise of a call that throws before
    that is rejected and nothing of it remains), the awaited work of a
    suspended invocation settles and the invocation runs to its end, the
    panel is created or revealed, the panel is disposed. *)
Inductive Event :=
  | CallAiQuery (query : string)
  | CallRefreshDocs
  | SettleAiQuery (i : nat) (o : AiOutcome)
  | SettleRefreshDocs (i : nat) (o : RefreshOutcome)
  | CreateOrShow
  | Dispose.

Definition started (inv : Invocation) (r : (Begun + string) * State) : State :=
  match r with
  | (inl Started, st) => set_suspended (suspended st ++ [inv]) st
  | (_, st) => st
  end.

Definition step (e : Event) (st : State) : State :=
  match e with
  | CallAiQuery query => started (AiQuery query) (handleAiQuery_begin query st)
  | CallRefreshDocs => started RefreshDocs (handleRefreshDocs_begin st)
  | SettleAiQuery i o =>
      match suspended st !! i with
      | Some (AiQuery _) =>
          (handleAiQuery_resume o (set_suspended (delete i (suspended st)) st)).2
      | _ => st
      end
  | SettleRefreshDocs i o =>
      match suspended st !! i with
      | Some RefreshDocs =>
          (handleRefreshDocs_resume o (set_suspended (delete i (suspended st)) st)).2
      | _ => st
      end
  | CreateOrShow => set_panel true st
  | Dispose => set_panel false st
  end.

Definition run (events : list Event) (st : State) : State :=
  foldl (λ st e, step e st) st events.

(** The same panel object with the messages [extra] spliced into what was
    posted, after the first [n] messages. *)
Definition splice (n : nat) (extra : list Message) (st : State) : State :=
  {| panel := panel st; isProcessing := isProcessing st;
     messageHistory := messageHistory st;
     posted := take n (posted st) ++ extra ++ drop n (posted st);
     suspended := suspended st |}.

End WebviewPanel.
(** ** media/main.js, the script of the webview *)

Module WebviewScript.

Inductive Kind := Const | Let | Function.

Global Instance Kind_eq_dec : EqDecision Kind.
Proof. solve_decision. Defined.



(** What the branches of the message handler do. *)
Inductive Branch :=
  | ShowAiResponse
  | ShowSettings
  | SettingsSaved
  | ShowRefreshStatus
  | AppendDocResponseToChat
  | ShowDocResults.

Global Instance Branch_eq_dec : EqDecision Branch.
Proof. solve_decision. Defined.





End WebviewScript.
(** ** Sample data *)

Module Samples.
Import DocDiffer.

Definition paragraph (text : string) : Element :=
  {| el_text := text; el_is := λ sel, bool_decide (sel = "p") |}.

Definition subheading (text : string) : Element :=
  {| el_text := text; el_is := λ sel, bool_decide (sel = "h2") |}.

Definition division (text : string) : Element :=
  {| el_text := text; el_is := λ _, false |}.

(** A Tailwind page with three [h2] headings: one followed by two paragraphs,
    one with no paragraph before the next heading, one with a blank title. *)
Definition tailwind_page : list Heading :=
  [ {| h_text := "  Flexbox ";
       h_next := [ paragraph " Use flex utilities. "; division "aside";
                   paragraph "They compose."; subheading "Grid";
                   paragraph "Grid text" ] |};
    {| h_text := "Grid"; h_next := [ division "nothing here" ] |};
    {| h_text := "   "; h_next := [ paragraph "orphan" ] |} ].

(** The Next.js site fails, the Tailwind site answers. *)
Definition world : World :=
  {| respond := λ u, if bool_decide (u = "https://tailwindcss.com/docs")
                     then Page tailwind_page else Thrown;
     clock := "2024-08-12T00:00:00.000Z";
     write_error := None |}.

Definition doc (ty title content : string) : Doc :=
  {| doc_title := title; doc_content := content; doc_source := ty;
     doc_type := ty; doc_url := "https://example.org";
     doc_timestamp := "2024-08-11T00:00:00.000Z" |}.

Definition snapshotA : gmap string Doc :=
  <["nextjs:Routing" := doc "nextjs" "Routing" "old text"]>
  (<["nextjs:Caching" := doc "nextjs" "Caching" "same"]>
  (<["nextjs:Gone" := doc "nextjs" "Gone" "bye"]> ∅)).

Definition snapshotB : gmap string Doc :=
  <["nextjs:Routing" := doc "nextjs" "Routing" "new text"]>
  (<["nextjs:Caching" := doc "nextjs" "Caching" "same"]>
  (<["tailwind:Flexbox" := doc "tailwind" "Flexbox" "flex"]> ∅)).

(** An editor on one file whose document is at version [v], and a context
    whose selection is the decimal numeral of [i]. *)
Definition editor_at (v : nat) : ContextExtractor.Editor :=
  {| ContextExtractor.ed_fileName := "/app/page.tsx";
     ContextExtractor.ed_startLine := 3;
     ContextExtractor.ed_startCharacter := 0;
     ContextExtractor.ed_endLine := 3;
     ContextExtractor.ed_endCharacter := 12;
     ContextExtractor.ed_version := v;
     ContextExtractor.ed_text := "export default function Page() {}";
     ContextExtractor.ed_selectedText := "Page";
     ContextExtractor.ed_surroundingCode := "export default function Page() {}";
     ContextExtractor.ed_languageId := "typescriptreact" |}.

Definition context_at (i : nat) : ContextExtractor.Context :=
  {| ContextExtractor.fileName := "/app/page.tsx";
     ContextExtractor.fileExtension := "tsx";
     ContextExtractor.selectedText := pretty i;
     ContextExtractor.surroundingCode := "export default function Page() {}";
     ContextExtractor.fullText := "export default function Page() {}";
     ContextExtractor.language := "typescriptreact" |}.

Definition answering : ContextExtractor.World :=
  {| ContextExtractor.client_answers := true;
     ContextExtractor.now := 1723420800000%Z;
     ContextExtractor.query_documents := Some ["Routing"; "Layouts"] |}.

(** Fifty-one edits of one file, each looked at once; thirty-one different
    selections, each queried once. *)
Definition fifty_one_extractions : list ContextExtractor.Call :=
  map (λ v, ContextExtractor.ExtractActiveEditorContext (Some (editor_at v)))
      (seq 1 51).

Definition thirty_one_queries : list ContextExtractor.Call :=
  map (λ i, ContextExtractor.FindRelevantDocs (context_at i) 5 answering)
      (seq 1 31).

(** A free profile one completion short of the day's allowance. *)
Definition free_at_49 : StorageManager.UserData :=
  {| StorageManager.plan := "free";
     StorageManager.usage :=
       {| StorageManager.lastResetDate := "2024-08-12";
          StorageManager.completions := 49;
          StorageManager.docRefreshes := 0;
          StorageManager.contextDepth := "file" |} |}.

End Samples.

(** * Properties *)

(** ** Strings and object lookups *)

Section js_facts.
Import JS.



Lemma contains_colon_app (s t : string) :
  contains_colon (s +:+ ":" +:+ t) = true.
Proof.
  induction s as [|c s IH]; simpl; [done|].
  rewrite IH. apply orb_true_r.
Qed.

Lemma colon_not_inherited (k : string) :
  contains_colon k = true → k ∉ object_prototype_names.
Proof.
  intros Hk Hin. unfold object_prototype_names in Hin.
  repeat (apply elem_of_cons in Hin as [-> | Hin]; [by vm_compute in Hk|]).
  by apply elem_of_nil in Hin.
Qed.

Context {V : Type}.
Implicit Types obj : gmap string V.

Lemma truthy_get_own obj k :
  k ∉ object_prototype_names →
  truthy (get obj k) = bool_decide (k ∈ dom obj).
Proof.
  intros Hk. unfold get.
  destruct (obj !! k) as [v|] eqn:E; simpl.
  - symmetry. apply bool_decide_eq_true. apply elem_of_dom. eauto.
  - rewrite (bool_decide_eq_false_2 _ Hk). simpl.
    symmetry. apply bool_decide_eq_false. rewrite elem_of_dom, E.
    by intros [? ?].
Qed.

Lemma truthy_get_lookup obj k v : obj !! k = Some v → truthy (get obj k) = true.
Proof. intros E. unfold get. by rewrite E. Qed.

End js_facts.

(** ** The differ *)

Section differ_facts.
Import DocDiffer.
Implicit Types previous latest : gmap string Doc.

Lemma snapshot_own_keys docs : is_snapshot docs → JS.own_keys_only docs.
Proof.
  intros Hdocs k Hk. destruct (Hdocs k Hk) as (ty & title & ->).
  apply colon_not_inherited, contains_colon_app.
Qed.

Lemma is_snapshot_empty : is_snapshot ∅.
Proof. intros k Hk. by rewrite dom_empty_L in Hk. Qed.

Lemma is_snapshot_insert docs sourceType title d :
  is_snapshot docs → is_snapshot (<[sourceType +:+ ":" +:+ title := d]> docs).
Proof.
  intros Hdocs k. rewrite dom_insert_L.
  intros [->%elem_of_singleton | Hin]%elem_of_union; [|by apply Hdocs].
  by exists sourceType, title.
Qed.

Lemma classify_latest_fold previous latest k :
  let nu := map_fold (classify_latest previous) (∅, ∅) latest in
  nu.1 !! k = (if JS.truthy (JS.get previous k) then None else latest !! k) ∧
  nu.2 !! k = match latest !! k with
              | Some d =>
                  if JS.truthy (JS.get previous k)
                     && bool_decide (content_of (JS.get previous k)
                                     ≠ Some (doc_content d))
                  then Some {| latest_doc := d;
                               previousContent := content_of (JS.get previous k) |}
                  else None
              | None => None
              end.
Proof.
  apply (map_fold_weak_ind (λ nu m,
    nu.1 !! k = (if JS.truthy (JS.get previous k) then None else m !! k) ∧
    nu.2 !! k = match m !! k with
                | Some d =>
                    if JS.truthy (JS.get previous k)
                       && bool_decide (content_of (JS.get previous k)
                                       ≠ Some (doc_content d))
                    then Some {| latest_doc := d;
                                 previousContent := content_of (JS.get previous k) |}
                    else None
                | None => None
                end)).
  - simpl. rewrite !lookup_empty. by destruct (JS.truthy _).
  - intros i d m [n u] Hi [IHn IHu]. simpl in IHn, IHu.
    unfold classify_latest. simpl.
    destruct (decide (i = k)) as [->|Hne].
    + rewrite lookup_insert_eq. rewrite Hi in IHn, IHu.
      destruct (JS.truthy (JS.get previous k)) eqn:Et; simpl.
      * case_bool_decide; simpl; [by rewrite lookup_insert_eq|done].
      * by rewrite lookup_insert_eq.
    + rewrite (lookup_insert_ne m) by done.
      destruct (JS.truthy (JS.get previous i)); simpl.
      * case_bool_decide; simpl; [by rewrite lookup_insert_ne|done].
      * by rewrite lookup_insert_ne.
Qed.

Lemma classify_previous_fold previous latest k :
  map_fold (classify_previous latest) ∅ previous !! k
  = if JS.truthy (JS.get latest k) then None else previous !! k.
Proof.
  apply (map_fold_weak_ind (λ r m,
    r !! k = if JS.truthy (JS.get latest k) then None else m !! k)).
  - rewrite !lookup_empty. by destruct (JS.truthy _).
  - intros i d m r Hi IH. unfold classify_previous.
    destruct (decide (i = k)) as [->|Hne].
    + rewrite lookup_insert_eq. rewrite Hi in IH.
      destruct (JS.truthy (JS.get latest k)); simpl; [done|].
      by rewrite lookup_insert_eq.
    + rewrite (lookup_insert_ne m) by done.
      destruct (JS.truthy (JS.get latest i)); simpl; [done|].
      by rewrite lookup_insert_ne.
Qed.

Lemma newDocs_lookup previous latest k :
  newDocs (findDifferences previous latest) !! k
  = if JS.truthy (JS.get previous k) then None else latest !! k.
Proof. apply classify_latest_fold. Qed.

Lemma updatedDocs_lookup previous latest k :
  updatedDocs (findDifferences previous latest) !! k
  = match latest !! k with
    | Some d =>
        if JS.truthy (JS.get previous k)
           && bool_decide (content_of (JS.get previous k) ≠ Some (doc_content d))
        then Some {| latest_doc := d;
                     previousContent := content_of (JS.get previous k) |}
        else None
    | None => None
    end.
Proof. apply classify_latest_fold. Qed.

Lemma removedDocs_lookup previous latest k :
  removedDocs (findDifferences previous latest) !! k
  = if JS.truthy (JS.get latest k) then None else previous !! k.
Proof. apply classify_previous_fold. Qed.

Lemma newDocs_dom previous latest :
  JS.own_keys_only latest →
  dom (newDocs (findDifferences previous latest)) = dom latest ∖ dom previous.
Proof.
  intros Hl. apply set_eq. intros k.
  rewrite elem_of_difference, elem_of_dom, newDocs_lookup.
  destruct (decide (k ∈ dom latest)) as [Hk|Hk].
  - rewrite (truthy_get_own previous k) by auto.
    case_bool_decide; split.
    + by intros [? ?].
    + by intros [_ ?].
    + done.
    + intros _. by apply elem_of_dom.
  - split; [|by intros [? _]].
    intros H. destruct (JS.truthy _); [by destruct H|].
    by apply elem_of_dom in H.
Qed.

Lemma removedDocs_dom previous latest :
  JS.own_keys_only previous →
  dom (removedDocs (findDifferences previous latest)) = dom previous ∖ dom latest.
Proof.
  intros Hp. apply set_eq. intros k.
  rewrite elem_of_difference, elem_of_dom, removedDocs_lookup.
  destruct (decide (k ∈ dom previous)) as [Hk|Hk].
  - rewrite (truthy_get_own latest k) by auto.
    case_bool_decide; split.
    + by intros [? ?].
    + by intros [_ ?].
    + done.
    + intros _. by apply elem_of_dom.
  - split; [|by intros [? _]].
    intros H. destruct (JS.truthy _); [by destruct H|].
    by apply elem_of_dom in H.
Qed.

Lemma updatedDocs_dom previous latest k :
  JS.own_keys_only latest →
  k ∈ dom (updatedDocs (findDifferences previous latest)) ↔
  ∃ a b, previous !! k = Some a ∧ latest !! k = Some b
         ∧ doc_content a ≠ doc_content b.
Proof.
  intros Hl. rewrite elem_of_dom, updatedDocs_lookup.
  destruct (latest !! k) as [b|] eqn:Eb.
  - assert (k ∉ JS.object_prototype_names) as Hk.
    { apply Hl, elem_of_dom. eauto. }
    unfold JS.get. destruct (previous !! k) as [a|] eqn:Ea; simpl.
    + case_bool_decide as Hc; split.
      * intros _. exists a, b. split_and!; [done..|].
        intros E. apply Hc. by rewrite E.
      * eauto.
      * by intros [? ?].
      * intros (a' & b' & [= <-] & [= <-] & Hne). by injection Hc.
    + rewrite (bool_decide_eq_false_2 _ Hk). simpl. split.
      * by intros [? ?].
      * by intros (a & ? & ? & _).
  - split; [by intros [? ?]|]. by intros (? & ? & _ & ? & _).
Qed.

(** C1.  For every previous snapshot [A] and latest snapshot [B],
    [findDifferences] returns [newDocs] over exactly
    the keys of [B] absent from [A], [removedDocs] over exactly the keys of
    [A] absent from [B], and [updatedDocs] over exactly the keys present in
    both whose [content] differs.  Two empty snapshots give three empty
    results; two disjoint snapshots give every key of [B] as new, every key
    of [A] as removed and none as updated. *)
Theorem findDifferences_set_difference (A B : gmap string Doc) :
  is_snapshot A → is_snapshot B →
  let d := findDifferences A B in
  dom (newDocs d) = dom B ∖ dom A ∧
  dom (removedDocs d) = dom A ∖ dom B ∧
  (∀ k, k ∈ dom (updatedDocs d) ↔
        ∃ a b, A !! k = Some a ∧ B !! k = Some b ∧ doc_content a ≠ doc_content b) ∧
  (A = ∅ → B = ∅ → newDocs d = ∅ ∧ updatedDocs d = ∅ ∧ removedDocs d = ∅) ∧
  (dom A ## dom B →
     dom (newDocs d) = dom B ∧ dom (removedDocs d) = dom A ∧ updatedDocs d = ∅).
Proof.
  intros HA%snapshot_own_keys HB%snapshot_own_keys d. subst d.
  pose proof (newDocs_dom A B HB) as Hn.
  pose proof (removedDocs_dom A B HA) as Hr.
  pose proof (λ k, updatedDocs_dom A B k HB) as Hu.
  split_and!; try done.
  - intros -> ->. split_and!; apply dom_empty_iff_L.
    + rewrite Hn, dom_empty_L. apply difference_diag_L.
    + apply set_eq. intros k. rewrite Hu. split; [|by intros ?%elem_of_empty].
      intros (a & _ & E & _). by rewrite lookup_empty in E.
    + rewrite Hr, dom_empty_L. apply difference_diag_L.
  - intros Hdisj. split_and!.
    + rewrite Hn. by apply difference_disjoint_L.
    + rewrite Hr. by apply difference_disjoint_L.
    + apply dom_empty_iff_L, set_eq. intros k. rewrite Hu.
      split; [|by intros ?%elem_of_empty].
      intros (a & b & Ea & Eb & _). exfalso.
      apply (Hdisj k); apply elem_of_dom; eauto.
Qed.

Lemma findDifferences_set_difference_witness :
  let d := findDifferences Samples.snapshotA Samples.snapshotB in
  dom (newDocs d) = dom Samples.snapshotB ∖ dom Samples.snapshotA ∧
  dom (removedDocs d) = dom Samples.snapshotA ∖ dom Samples.snapshotB ∧
  (∀ k, k ∈ dom (updatedDocs d) ↔
        ∃ a b, Samples.snapshotA !! k = Some a ∧ Samples.snapshotB !! k = Some b
               ∧ doc_content a ≠ doc_content b) ∧
  (Samples.snapshotA = ∅ → Samples.snapshotB = ∅ →
     newDocs d = ∅ ∧ updatedDocs d = ∅ ∧ removedDocs d = ∅) ∧
  (dom Samples.snapshotA ## dom Samples.snapshotB →
     dom (newDocs d) = dom Samples.snapshotB
     ∧ dom (removedDocs d) = dom Samples.snapshotA ∧ updatedDocs d = ∅).
Proof.
  apply (findDifferences_set_difference Samples.snapshotA Samples.snapshotB).
  - apply (is_snapshot_insert _ "nextjs" "Routing").
    apply (is_snapshot_insert _ "nextjs" "Caching").
    apply (is_snapshot_insert _ "nextjs" "Gone").
    apply is_snapshot_empty.
  - apply (is_snapshot_insert _ "nextjs" "Routing").
    apply (is_snapshot_insert _ "nextjs" "Caching").
    apply (is_snapshot_insert _ "tailwind" "Flexbox").
    apply is_snapshot_empty.
Defined.

(** *** Merging *)

Lemma assign_all (base latest : gmap string Doc) :
  map_fold (λ key doc mergedDocs, <[key := doc]> mergedDocs) base latest
  = latest ∪ base.
Proof.
  apply (map_fold_weak_ind (λ r m, r = m ∪ base)).
  - by rewrite (left_id_L ∅ (∪)).
  - intros i d m r Hi ->. by rewrite insert_union_l.
Qed.

Lemma delete_all (base removed : gmap string Doc) :
  map_fold (λ key (_ : Doc) mergedDocs, delete key mergedDocs) base removed
  = base ∖ removed.
Proof.
  apply (map_fold_weak_ind (λ r m, r = base ∖ m)).
  - by rewrite map_difference_empty.
  - intros i d m r Hi ->. apply map_eq. intros k.
    destruct (decide (i = k)) as [->|Hne].
    + rewrite lookup_delete_eq. symmetry.
      apply lookup_difference_None. right. rewrite lookup_insert_eq. eauto.
    + rewrite lookup_delete_ne by done.
      rewrite !lookup_difference, lookup_insert_ne by done. done.
Qed.

Lemma merge_docs_eq previous d latest :
  merge_docs previous d latest = latest ∪ (previous ∖ removedDocs d).
Proof. unfold merge_docs. by rewrite delete_all, assign_all. Qed.

Lemma merge_docs_lookup previous latest k :
  merge_docs previous (findDifferences previous latest) latest !! k
  = match latest !! k with
    | Some d => Some d
    | None => if JS.truthy (JS.get latest k) then previous !! k else None
    end.
Proof.
  rewrite merge_docs_eq, lookup_union, lookup_difference, removedDocs_lookup.
  destruct (latest !! k) as [d|] eqn:E.
  - by rewrite union_Some_l.
  - rewrite (left_id_L None union).
    destruct (JS.truthy _); [done|]. by destruct (previous !! k).
Qed.

(** With a previous snapshot free of inherited names, what is merged is the
    latest fetch: every stored key the fetch lacks counts as removed. *)
Lemma merge_docs_latest previous latest :
  JS.own_keys_only previous →
  merge_docs previous (findDifferences previous latest) latest = latest.
Proof.
  intros Hp. apply map_eq. intros k. rewrite merge_docs_lookup.
  destruct (latest !! k) as [d|] eqn:E; [done|].
  destruct (previous !! k) as [a|] eqn:Ea; [|by destruct (JS.truthy _)].
  rewrite truthy_get_own by (apply Hp, elem_of_dom; eauto).
  rewrite bool_decide_eq_false_2; [done|].
  rewrite elem_of_dom, E. by intros [? ?].
Qed.

Lemma processDocs_success sourceTypes w st r st' :
  processDocs sourceTypes w st = (Success r, st') →
  let latest := fetch_all w (sourcesToProcess sourceTypes) in
  let d := findDifferences (previousDocs st) latest in
  sourcesToProcess sourceTypes ≠ [] ∧ write_error w = None ∧
  differences r = d ∧
  latestDocs r = merge_docs (previousDocs st) d latest ∧
  processedSources r = map name (sourcesToProcess sourceTypes) ∧
  previousDocs st' = latestDocs r ∧ docsFile st' = Some (latestDocs r).
Proof.
  unfold processDocs.
  destruct (sourcesToProcess sourceTypes) as [|s ss] eqn:Es; [done|].
  destruct (write_error w); [done|].
  intros [= <- <-]. by split_and!.
Qed.

(** *** Fetching *)

Lemma truthy_string_nonempty (s : string) :
  JS.truthy_string s = true ↔ s ≠ EmptyString.
Proof. by destruct s. Qed.


Lemma visit_all_lookup source now matched k d :
  foldl (visit_heading source now) ∅ matched !! k = Some d →
  ∃ h, h ∈ matched ∧ heading_title h ≠ EmptyString
       ∧ heading_content source h ≠ EmptyString
       ∧ k = doc_key source (heading_title h)
       ∧ d = entry_of source now (heading_title h) (heading_content source h).
Proof.
  induction matched as [|h matched IH] using rev_ind; simpl.
  - by rewrite lookup_empty.
  - rewrite foldl_app. simpl. unfold visit_heading at 1.
    destruct (JS.truthy_string (heading_title h)
              && JS.truthy_string (heading_content source h)) eqn:Et.
    + apply andb_true_iff in Et as [Ht Hc].
      apply truthy_string_nonempty in Ht, Hc.
      destruct (decide (doc_key source (heading_title h) = k)) as [<-|Hne].
      * rewrite lookup_insert_eq. intros [= <-].
        exists h. split_and!; try done. apply elem_of_app. right. by left.
      * rewrite lookup_insert_ne by done. intros Hk.
        destruct (IH Hk) as (h' & Hin & ?). exists h'.
        split; [|done]. apply elem_of_app. by left.
    + intros Hk. destruct (IH Hk) as (h' & Hin & ?). exists h'.
      split; [|done]. apply elem_of_app. by left.
Qed.

Lemma fetchLatestDocs_lookup source now resp k d :
  fetchLatestDocs source now resp !! k = Some d →
  ∃ matched h, resp = Page matched ∧ h ∈ matched
       ∧ heading_title h ≠ EmptyString
       ∧ heading_content source h ≠ EmptyString
       ∧ k = doc_key source (heading_title h)
       ∧ d = entry_of source now (heading_title h) (heading_content source h).
Proof.
  destruct resp as [|matched]; simpl; [by rewrite lookup_empty|].
  intros (h & ?)%visit_all_lookup. by exists matched, h.
Qed.

Lemma sourcesToProcess_docSources sourceTypes source :
  source ∈ sourcesToProcess sourceTypes → source ∈ docSources.
Proof.
  unfold sourcesToProcess. destruct sourceTypes; [done|].
  by intros [_ ?]%list_elem_of_filter.
Qed.

(** A key names its source and its title. *)
Lemma doc_key_inj (s s' : Source) (t t' : string) :
  s ∈ docSources → s' ∈ docSources →
  doc_key s t = doc_key s' t' → s = s' ∧ t = t'.
Proof.
  unfold docSources. intros Hs Hs'.
  repeat (apply elem_of_cons in Hs as [-> | Hs]);
    [..|by apply elem_of_nil in Hs];
    (repeat (apply elem_of_cons in Hs' as [-> | Hs']);
     [..|by apply elem_of_nil in Hs']);
    unfold doc_key; simpl; intros [= ?]; by subst.
Qed.

Lemma merge_results_acc (rs : list (gmap string Doc)) acc k d :
  foldl (λ latestDocs result, result ∪ latestDocs) acc rs !! k = Some d →
  acc !! k = Some d ∨ ∃ r, r ∈ rs ∧ r !! k = Some d.
Proof.
  revert acc. induction rs as [|r rs IH]; simpl; intros acc; [by left|].
  intros [Hacc | (r' & Hin & Hr')]%IH.
  - apply lookup_union_Some_raw in Hacc as [Hr | [_ Hacc]].
    + right. exists r. split; [by left|done].
    + by left.
  - right. exists r'. split; [by right|done].
Qed.

Lemma merge_results_lookup rs k d :
  merge_results rs !! k = Some d → ∃ r, r ∈ rs ∧ r !! k = Some d.
Proof.
  intros [Hacc|?]%merge_results_acc; [|done]. by rewrite lookup_empty in Hacc.
Qed.

Lemma merge_results_agree_acc (rs : list (gmap string Doc)) acc k d :
  (∀ d', acc !! k = Some d' → d' = d) →
  (∀ r' d', r' ∈ rs → r' !! k = Some d' → d' = d) →
  acc !! k = Some d ∨ (∃ r, r ∈ rs ∧ r !! k = Some d) →
  foldl (λ latestDocs result, result ∪ latestDocs) acc rs !! k = Some d.
Proof.
  revert acc. induction rs as [|r rs IH]; simpl; intros acc Hacc Hrs Hex.
  - destruct Hex as [?|(? & []%elem_of_nil & _)]. done.
  - apply IH.
    + intros d' [Hr | [_ Ha]]%lookup_union_Some_raw.
      * apply (Hrs r); [by left|done].
      * by apply Hacc.
    + intros r' d' Hin. apply Hrs. by right.
    + destruct Hex as [Ha | (r' & Hin & Hr')].
      * left. apply lookup_union_Some_raw.
        destruct (r !! k) as [d'|] eqn:Er.
        -- left. f_equal. apply (Hrs r); [by left|done].
        -- by right.
      * apply elem_of_cons in Hin as [-> | Hin].
        -- left. apply lookup_union_Some_raw. by left.
        -- right. by exists r'.
Qed.

Lemma fetch_all_lookup w sources k d :
  fetch_all w sources !! k = Some d →
  ∃ s, s ∈ sources ∧ fetchLatestDocs s (clock w) (respond w (url s)) !! k = Some d.
Proof.
  intros (r & Hin & Hr)%merge_results_lookup.
  apply list_elem_of_fmap in Hin as (s & -> & Hs). by exists s.
Qed.

Lemma fetch_all_includes w sources s k d :
  (∀ s', s' ∈ sources → s' ∈ docSources) →
  s ∈ sources →
  fetchLatestDocs s (clock w) (respond w (url s)) !! k = Some d →
  fetch_all w sources !! k = Some d.
Proof.
  intros Hsub Hs Hk. unfold fetch_all, merge_results.
  apply merge_results_agree_acc.
  - intros d'. by rewrite lookup_empty.
  - intros r' d' (s' & -> & Hs')%list_elem_of_fmap Hk'.
    destruct (fetchLatestDocs_lookup _ _ _ _ _ Hk)
      as (? & h & _ & _ & _ & _ & Hkey & _).
    destruct (fetchLatestDocs_lookup _ _ _ _ _ Hk')
      as (? & h' & _ & _ & _ & _ & Hkey' & _).
    rewrite Hkey in Hkey'.
    apply doc_key_inj in Hkey' as [-> _]; [|by auto..].
    congruence.
  - right. eexists. split; [|exact Hk].
    apply list_elem_of_fmap. by exists s.
Qed.

Lemma fetch_all_snapshot w sources : is_snapshot (fetch_all w sources).
Proof.
  intros k [d Hk]%elem_of_dom.
  apply fetch_all_lookup in Hk as (s & _ & Hk).
  apply fetchLatestDocs_lookup in Hk as (? & h & _ & _ & _ & _ & -> & _).
  by exists (type s), (heading_title h).
Qed.

(** C2.  After every successful run of [processDocs] on a stored snapshot,
    the merged snapshot is what the file at [docsPath] holds and what
    reloading the file yields; it contains every key the latest fetch
    reported, none of the keys classified as removed, and no key the latest
    fetch does not report; and it is a snapshot again. *)
Theorem processDocs_round_trip (sourceTypes : list string) (w : World)
    (st st' : State) (r : ProcessSuccess) :
  is_snapshot (previousDocs st) →
  processDocs sourceTypes w st = (Success r, st') →
  let fetched := fetch_all w (sourcesToProcess sourceTypes) in
  docsFile st' = Some (latestDocs r) ∧
  loadPreviousDocs (docsFile st') = latestDocs r ∧
  (∀ k, k ∈ dom fetched → k ∈ dom (latestDocs r)) ∧
  (∀ k, k ∈ dom (removedDocs (differences r)) → k ∉ dom (latestDocs r)) ∧
  (∀ k, k ∉ dom fetched → k ∉ dom (latestDocs r)) ∧
  previousDocs (new (docsFile st')) = previousDocs st' ∧
  is_snapshot (previousDocs st').
Proof.
  intros Hp%snapshot_own_keys Hrun fetched.
  apply processDocs_success in Hrun
    as (_ & _ & Hd & Hm & _ & Hprev & Hfile).
  fold fetched in Hd, Hm.
  rewrite merge_docs_latest in Hm by done.
  rewrite Hfile, Hprev, Hm, Hd. split_and!; try done.
  - intros k. rewrite !elem_of_dom, removedDocs_lookup.
    intros [a Ha] [b Hb].
    by rewrite (truthy_get_lookup _ _ _ Hb) in Ha.
  - apply fetch_all_snapshot.
Qed.

Lemma processDocs_round_trip_witness :
  ∃ r st',
    processDocs [] Samples.world (new (Some Samples.snapshotA)) = (Success r, st') ∧
    docsFile st' = Some (latestDocs r) ∧
    loadPreviousDocs (docsFile st') = latestDocs r ∧
    (∀ k, k ∈ dom (fetch_all Samples.world (sourcesToProcess [])) →
          k ∈ dom (latestDocs r)) ∧
    (∀ k, k ∈ dom (removedDocs (differences r)) → k ∉ dom (latestDocs r)) ∧
    (∀ k, k ∉ dom (fetch_all Samples.world (sourcesToProcess [])) →
          k ∉ dom (latestDocs r)).
Proof.
  assert (is_snapshot (previousDocs (new (Some Samples.snapshotA)))) as Hsnap.
  { simpl. apply (is_snapshot_insert _ "nextjs" "Routing").
    apply (is_snapshot_insert _ "nextjs" "Caching").
    apply (is_snapshot_insert _ "nextjs" "Gone").
    apply is_snapshot_empty. }
  eexists _, _. split; [reflexivity|].
  destruct (processDocs_round_trip [] Samples.world
              (new (Some Samples.snapshotA)) _ _ Hsnap eq_refl)
    as (H1 & H2 & H3 & H4 & H5 & _).
  by split_and!.
Defined.

(** C6.  When the fetch of one of the processed sources throws,
    [fetchLatestDocs] yields the empty object for it; the merged latest
    snapshot then holds no entry of that source and every entry fetched
    from the other sources, and [processDocs] reports success with all of
    them in the snapshot it returns (the write of the snapshot file going
    through). *)
Theorem failed_source_does_not_abort (sourceTypes : list string) (w : World)
    (st : State) (failed : Source) :
  failed ∈ sourcesToProcess sourceTypes →
  respond w (url failed) = Thrown →
  write_error w = None →
  let latest := fetch_all w (sourcesToProcess sourceTypes) in
  fetchLatestDocs failed (clock w) (respond w (url failed)) = ∅ ∧
  (∀ title, latest !! doc_key failed title = None) ∧
  (∀ k d, latest !! k = Some d →
          doc_type d ≠ type failed ∧ doc_source d ≠ name failed) ∧
  (∀ s k d, s ∈ sourcesToProcess sourceTypes →
            fetchLatestDocs s (clock w) (respond w (url s)) !! k = Some d →
            latest !! k = Some d) ∧
  ∃ r st', processDocs sourceTypes w st = (Success r, st') ∧
           ∀ k d, latest !! k = Some d → latestDocs r !! k = Some d.
Proof.
  intros Hfailed Hthrown Hwrite latest.
  assert (∀ k d s, s ∈ sourcesToProcess sourceTypes →
            fetchLatestDocs s (clock w) (respond w (url s)) !! k = Some d →
            s ≠ failed) as Hother.
  { intros k d s _ Hk ->. rewrite Hthrown in Hk. simpl in Hk.
    by rewrite lookup_empty in Hk. }
  split_and!.
  - by rewrite Hthrown.
  - intros title. destruct (latest !! _) as [d|] eqn:E; [|done]. exfalso.
    apply fetch_all_lookup in E as (s & Hs & Hk).
    pose proof (Hother _ _ _ Hs Hk) as Hne.
    apply fetchLatestDocs_lookup in Hk as (? & h & _ & _ & _ & _ & Hkey & _).
    apply doc_key_inj in Hkey as [<- _];
      [done|by eapply sourcesToProcess_docSources..].
  - intros k d (s & Hs & Hk)%fetch_all_lookup.
    pose proof (Hother _ _ _ Hs Hk) as Hne.
    apply fetchLatestDocs_lookup in Hk as (? & h & _ & _ & _ & _ & _ & ->).
    simpl.
    pose proof (sourcesToProcess_docSources _ _ Hs) as Hs'.
    pose proof (sourcesToProcess_docSources _ _ Hfailed) as Hf'.
    clear -Hs' Hf' Hne. unfold docSources in *.
    repeat (apply elem_of_cons in Hs' as [-> | Hs']);
      [..|by apply elem_of_nil in Hs'];
      (repeat (apply elem_of_cons in Hf' as [-> | Hf']);
       [..|by apply elem_of_nil in Hf']); done.
  - intros s k d Hs Hk. eapply fetch_all_includes; [|done..].
    intros s'. apply sourcesToProcess_docSources.
  - unfold processDocs. fold latest.
    destruct (sourcesToProcess sourceTypes) as [|s0 ss] eqn:Es.
    { by apply elem_of_nil in Hfailed. }
    rewrite Hwrite. eexists _, _. split; [done|]. simpl.
    intros k d Hk. rewrite merge_docs_lookup. fold latest. by rewrite Hk.
Qed.
Lemma failed_source_does_not_abort_witness :
  let latest := fetch_all Samples.world (sourcesToProcess []) in
  fetchLatestDocs nextjs (clock Samples.world)
    (respond Samples.world (url nextjs)) = ∅ ∧
  (∀ title, latest !! doc_key nextjs title = None) ∧
  (∀ k d, latest !! k = Some d →
          doc_type d ≠ type nextjs ∧ doc_source d ≠ name nextjs) ∧
  (∀ s k d, s ∈ sourcesToProcess [] →
            fetchLatestDocs s (clock Samples.world)
              (respond Samples.world (url s)) !! k = Some d →
            latest !! k = Some d) ∧
  ∃ r st', processDocs [] Samples.world (new None) = (Success r, st') ∧
           ∀ k d, latest !! k = Some d → latestDocs r !! k = Some d.
Proof.
  apply (failed_source_does_not_abort [] Samples.world (new None) nextjs).
  - simpl. unfold docSources. left.
  - reflexivity.
  - reflexivity.
Defined.


End differ_facts.

(** ** The usage store *)

Section storage_facts.
Import StorageManager.







End storage_facts.

(** ** The extractor caches *)

Section extractor_facts.
Import ContextExtractor.

Lemma map_set_size {V} (m : JS.Map V) key value :
  JS.map_size (JS.map_set m key value) ≤ S (JS.map_size m).
Proof.
  unfold JS.map_size. induction m as [|[k v] m IH]; simpl; [lia|].
  case_bool_decide; simpl; lia.
Qed.

Lemma map_delete_first_size {V} (m : JS.Map V) :
  m ≠ [] → JS.map_size (JS.map_delete m (JS.map_first_key m)) < JS.map_size m.
Proof.
  unfold JS.map_size. destruct m as [|[k v] m]; [done|]. intros _.
  unfold JS.map_delete, JS.map_first_key.
  apply (length_filter_lt _ _ (k, v)); [by left|].
  simpl. by intros Hne.
Qed.

Lemma store_size {V} (limit : nat) (m : JS.Map V) key value :
  JS.map_size m ≤ S limit → JS.map_size (store limit m key value) ≤ S limit.
Proof.
  intros Hm. unfold store. case_bool_decide as Hfull.
  - pose proof (map_delete_first_size m) as Hdel.
    pose proof (map_set_size (JS.map_delete m (JS.map_first_key m)) key value).
    assert (m ≠ []) by (intros ->; simpl in Hfull; lia).
    specialize (Hdel ltac:(done)). lia.
  - pose proof (map_set_size m key value). lia.
Qed.

Lemma initializeCollection_bounded answers st :
  bounded st → bounded (initializeCollection answers st).
Proof. unfold initializeCollection. by destruct answers. Qed.

Lemma extract_bounded editor st :
  bounded st → bounded (extractActiveEditorContext editor st).2.
Proof.
  intros [Hc Hr]. unfold extractActiveEditorContext.
  destruct editor as [e|]; [|done].
  destruct (JS.map_has _ _); [done|]. split; simpl; [|done].
  by apply store_size.
Qed.

Lemma find_bounded context maxResults w st :
  bounded st → bounded (findRelevantDocs context maxResults w st).2.
Proof.
  intros Hst. unfold findRelevantDocs.
  set (st1 := if collection st then st else _).
  assert (bounded st1) as [Hc Hr].
  { subst st1. destruct (collection st); [done|].
    by apply initializeCollection_bounded. }
  destruct (negb (collection st1)); [done|].
  destruct (_ && _); [done|].
  destruct (query_documents w); [|done].
  split; simpl; [done|]. by apply store_size.
Qed.

Lemma getContextAndDocs_bounded maxResults editor w st :
  bounded st → bounded (getContextAndDocs maxResults editor w st).2.
Proof.
  intros Hst. unfold getContextAndDocs.
  pose proof (extract_bounded editor st Hst) as H1.
  destruct (extractActiveEditorContext editor st) as [[context|] st1];
    simpl in H1; [|done].
  destruct (_ && _); [done|].
  pose proof (find_bounded context maxResults w st1 H1) as H2.
  destruct (findRelevantDocs context maxResults w st1) as [found st2].
  simpl in H2. destruct H2 as [Hc Hr].
  split; simpl; [done|]. by apply store_size.
Qed.

Lemma updateCollection_bounded w delete_throws st :
  bounded st → bounded (updateCollection w delete_throws st).
Proof.
  intros Hst. unfold updateCollection.
  set (st1 := if collection st then st else _).
  assert (bounded st1).
  { subst st1. destruct (collection st); [done|].
    by apply initializeCollection_bounded. }
  destruct (negb (collection st1)); [done|].
  destruct delete_throws; [done|].
  split; simpl; lia.
Qed.

Lemma call_bounded c st : bounded st → bounded (call c st).
Proof.
  destruct c; simpl.
  - apply initializeCollection_bounded.
  - apply extract_bounded.
  - apply find_bounded.
  - apply getContextAndDocs_bounded.
  - apply updateCollection_bounded.
Qed.

(** Whatever is called and in whatever order, the context cache never holds
    more than fifty-one entries and the documents cache never more than
    thirty-one. *)
Lemma run_bounded calls : bounded (run calls new).
Proof.
  unfold run. assert (bounded new) as Hnew by (split; simpl; lia).
  revert Hnew. generalize new.
  induction calls as [|c calls IH]; intros st Hst; simpl; [done|].
  by apply IH, call_bounded.
Qed.

(** C4.  The eviction test is [size > 50] (and [size > 30]), made before the
    new entry is set: the fifty-first distinct context is stored with nothing
    evicted, and so is the thirty-first distinct query.  Fifty-one and
    thirty-one entries are the most the caches ever hold. *)
Theorem caches_exceed_their_limits :
  JS.map_size (contextQueries (run Samples.fifty_one_extractions new)) = 51 ∧
  JS.map_size (relevantDocs (run Samples.thirty_one_queries new)) = 31 ∧
  (∀ calls, JS.map_size (contextQueries (run calls new)) ≤ 51
            ∧ JS.map_size (relevantDocs (run calls new)) ≤ 31).
Proof.
  split_and!.
  - by vm_compute.
  - by vm_compute.
  - intros calls. apply run_bounded.
Qed.
End extractor_facts.

(** ** The documentation service *)

Section service_facts.
Import DocumentationService.



(** A query with anything else in it does reach the dictionaries. *)
Lemma getDocumentation_begins :
  getDocumentation (Some " react ") None 1723420800000 new
  = (Pending 0,
     {| cache := ∅; pendingRequests := {[ "auto:react" := 0 ]};
        begun := [(SmartFetch, "react")]; promises := 1 |}).
Proof. reflexivity. Qed.
End service_facts.

(** ** The webview panel *)

Section panel_facts.
Import WebviewPanel.

(** *** Handler code does not look at what was posted *)

Section splice.
Context (n : nat) (extra : list Message).

Definition oblivious {A} (m : M A) : Prop :=
  ∀ st, n ≤ length (posted st) →
    m (splice n extra st) = ((m st).1, splice n extra (m st).2)
    ∧ n ≤ length (posted (m st).2).

Lemma oblivious_ret {A} (a : A) : oblivious (mret a).
Proof. by intros st Hn. Qed.

Lemma oblivious_throw {A} message : oblivious (@throw A message).
Proof. by intros st Hn. Qed.

Lemma oblivious_bind {A B} (m : M A) (f : A → M B) :
  oblivious m → (∀ a, oblivious (f a)) → oblivious (m ≫= f).
Proof.
  intros Hm Hf st Hn. unfold mbind, M_bind.
  destruct (Hm st Hn) as [-> Hn'].
  destruct (m st) as [[a|e] st']; simpl in *; [|done].
  by apply Hf.
Qed.

Lemma oblivious_read_panel : oblivious (read panel).
Proof. by intros st Hn. Qed.

Lemma oblivious_read_isProcessing : oblivious (read isProcessing).
Proof. by intros st Hn. Qed.

Lemma oblivious_set_isProcessing b : oblivious (modify (set_isProcessing b)).
Proof. by intros st Hn. Qed.

Lemma oblivious_push_history m : oblivious (modify (push_history m)).
Proof. by intros st Hn. Qed.

Lemma splice_push_posted m st :
  n ≤ length (posted st) →
  push_posted m (splice n extra st) = splice n extra (push_posted m st).
Proof.
  intros Hn. unfold push_posted, splice. simpl. f_equal.
  rewrite take_app_le, drop_app_le by done.
  by rewrite <- !(assoc_L (++)).
Qed.

Lemma oblivious_postMessage m : oblivious (postMessage m).
Proof.
  intros st Hn. unfold postMessage, mbind, M_bind, read, modify, throw. simpl.
  destruct (panel st); simpl; [|done].
  split; [by rewrite splice_push_posted|]. rewrite length_app. lia.
Qed.

Lemma oblivious_try body handler b :
  oblivious body → (∀ e, oblivious (handler e)) →
  oblivious (try_catch_finally body handler (set_isProcessing b)).
Proof.
  intros Hbody Hhandler st Hn. unfold try_catch_finally.
  destruct (Hbody st Hn) as [-> Hn'].
  destruct (body st) as [[[]|e] st']; simpl in *; [done|].
  destruct (Hhandler e st' Hn') as [-> Hn''].
  by destruct (handler e st') as [r st''].
Qed.
End splice.

Create HintDb oblivious.

#[local] Hint Resolve oblivious_ret oblivious_throw oblivious_read_panel
  oblivious_read_isProcessing oblivious_set_isProcessing
  oblivious_push_history oblivious_postMessage : oblivious.

Ltac oblivious :=
  repeat first
    [ solve [auto with oblivious]
    | apply oblivious_try; [|intros ?]
    | apply oblivious_bind; [|intros ?]
    | match goal with |- oblivious _ _ (if ?b then _ else _) => destruct b end
    | match goal with |- oblivious _ _ (match ?x with _ => _ end) => destruct x end ].

Lemma handleAiQuery_begin_oblivious n extra query :
  oblivious n extra (handleAiQuery_begin query).
Proof. unfold handleAiQuery_begin. oblivious. Qed.

Lemma handleRefreshDocs_begin_oblivious n extra :
  oblivious n extra handleRefreshDocs_begin.
Proof. unfold handleRefreshDocs_begin. oblivious. Qed.

Lemma handleAiQuery_resume_oblivious n extra o :
  oblivious n extra (handleAiQuery_resume o).
Proof. unfold handleAiQuery_resume. oblivious. Qed.

Lemma handleRefreshDocs_resume_oblivious n extra o :
  oblivious n extra (handleRefreshDocs_resume o).
Proof. unfold handleRefreshDocs_resume. oblivious. Qed.
Lemma started_splice n extra inv (r : Begun + string) st :
  started inv (r, splice n extra st) = splice n extra (started inv (r, st)).
Proof. by destruct r as [[]|]. Qed.

Lemma started_posted inv (r : Begun + string) st :
  posted (started inv (r, st)) = posted st.
Proof. by destruct r as [[]|]. Qed.

Lemma step_splice n extra e st :
  n ≤ length (posted st) →
  step e (splice n extra st) = splice n extra (step e st)
  ∧ n ≤ length (posted (step e st)).
Proof.
  intros Hn. destruct e as [query| |i o|i o| |]; cbn [step].
  - destruct (handleAiQuery_begin_oblivious n extra query st Hn) as [-> Hn'].
    destruct (handleAiQuery_begin query st) as [r st'].
    by rewrite started_splice, started_posted.
  - destruct (handleRefreshDocs_begin_oblivious n extra st Hn) as [-> Hn'].
    destruct (handleRefreshDocs_begin st) as [r st'].
    by rewrite started_splice, started_posted.
  - change (suspended (splice n extra st)) with (suspended st).
    destruct (suspended st !! i) as [[q|]|]; [|done..].
    change (set_suspended ?l (splice n extra st))
      with (splice n extra (set_suspended l st)).
    by destruct (handleAiQuery_resume_oblivious n extra o
                   (set_suspended (delete i (suspended st)) st) Hn) as [-> Hn'].
  - change (suspended (splice n extra st)) with (suspended st).
    destruct (suspended st !! i) as [[q|]|]; [done| |done].
    change (set_suspended ?l (splice n extra st))
      with (splice n extra (set_suspended l st)).
    by destruct (handleRefreshDocs_resume_oblivious n extra o
                   (set_suspended (delete i (suspended st)) st) Hn) as [-> Hn'].
  - done.
  - done.
Qed.

Lemma run_splice n extra events st :
  n ≤ length (posted st) →
  run events (splice n extra st) = splice n extra (run events st).
Proof.
  revert st. induction events as [|e events IH]; intros st Hn; [done|].
  simpl. destruct (step_splice n extra e st Hn) as [-> Hn'].
  by apply IH.
Qed.

Lemma splice_end extra st :
  splice (length (posted st)) extra st
  = {| panel := panel st; isProcessing := isProcessing st;
       messageHistory := messageHistory st; posted := posted st ++ extra;
       suspended := suspended st |}.
Proof.
  unfold splice. f_equal.
  by rewrite take_ge, drop_ge, (right_id_L [] (++)) by done.
Qed.

(** A call made while [isProcessing] is set comes to this. *)
Lemma busy_call st e m :
  isProcessing st = true →
  (∃ query, e = CallAiQuery query ∧
     m = AiResponse
           "I'm still processing your previous request. Please wait a moment..."
           "info" false)
  ∨ (e = CallRefreshDocs ∧
     m = RefreshStatus "error"
           (Some "Already processing a request. Please wait.") None None) →
  step e st = splice (length (posted st)) (if panel st then [m] else []) st.
Proof.
  intros Hbusy He. rewrite splice_end.
  destruct st as [p b h ps ss]. simpl in Hbusy. subst b.
  destruct He as [(query & -> & ->) | [-> ->]]; simpl;
    unfold handleAiQuery_begin, handleRefreshDocs_begin, postMessage,
      mbind, M_bind, read, modify, throw, mret, M_ret; simpl;
    destruct p; simpl; unfold push_posted; simpl; f_equal;
    by rewrite ?(right_id_L [] (++)).
Qed.

(** C5.  While [isProcessing] is set, a call of [handleAiQuery] or of
    [handleRefreshDocs] only posts its one message (nothing when there is no
    panel to post to) and ends without starting: [messageHistory], the flag
    and the suspended invocations are as before, so nothing is queued and
    nothing cancelled; and whatever happens afterwards happens as if the call
    had not been made, that message aside. *)
Theorem busy_panel_rejects (st : State) (e : Event) (m : Message) :
  isProcessing st = true →
  (∃ query, e = CallAiQuery query ∧
     m = AiResponse
           "I'm still processing your previous request. Please wait a moment..."
           "info" false)
  ∨ (e = CallRefreshDocs ∧
     m = RefreshStatus "error"
           (Some "Already processing a request. Please wait.") None None) →
  let st' := step e st in
  posted st' = posted st ++ (if panel st then [m] else []) ∧
  messageHistory st' = messageHistory st ∧
  suspended st' = suspended st ∧
  isProcessing st' = true ∧
  panel st' = panel st ∧
  (∀ query, (handleAiQuery_begin query st).1 ≠ inl Started) ∧
  (handleRefreshDocs_begin st).1 ≠ inl Started ∧
  ∀ later, run later st'
           = splice (length (posted st)) (if panel st then [m] else [])
               (run later st).
Proof.
  intros Hbusy He st'. subst st'. rewrite (busy_call st e m Hbusy He).
  split_and!; try done.
  - by rewrite splice_end.
  - intros query. unfold handleAiQuery_begin, postMessage, mbind, M_bind, read.
    rewrite Hbusy. by destruct (panel st).
  - unfold handleRefreshDocs_begin, postMessage, mbind, M_bind, read.
    rewrite Hbusy. by destruct (panel st).
  - intros later. by apply run_splice.
Qed.

Lemma busy_panel_rejects_witness :
  let st := step (CallAiQuery "explain this") (step CreateOrShow new) in
  let info := AiResponse
                "I'm still processing your previous request. Please wait a moment..."
                "info" false in
  isProcessing st = true ∧
  posted (step (CallAiQuery "and this") st) = posted st ++ [info] ∧
  messageHistory (step (CallAiQuery "and this") st) = messageHistory st ∧
  suspended (step (CallAiQuery "and this") st) = [AiQuery "explain this"].
Proof.
  intros st info.
  destruct (busy_panel_rejects st (CallAiQuery "and this") info eq_refl)
    as (Hposted & Hhistory & Hsuspended & _).
  { left. by exists "and this". }
  by split_and!.
Defined.

(** *** The flag after a request *)

Lemma finally_sets_flag body handler b st :
  isProcessing (try_catch_finally body handler (set_isProcessing b) st).2 = b.
Proof.
  unfold try_catch_finally.
  destruct (body st) as [[[]|e] st']; [done|].
  by destruct (handler e st').
Qed.

Lemma handleAiQuery_resume_resets o st :
  isProcessing (handleAiQuery_resume o st).2 = false.
Proof. apply finally_sets_flag. Qed.

Lemma handleRefreshDocs_resume_resets o st :
  isProcessing (handleRefreshDocs_resume o st).2 = false.
Proof. apply finally_sets_flag. Qed.

(** An invocation that has reached its [try] resets the flag when it ends,
    whatever was thrown on the way, and an error is reported to the webview
    when there is one. *)
Lemma settled_resets i o st query :
  suspended st !! i = Some (AiQuery query) →
  isProcessing (step (SettleAiQuery i o) st) = false.
Proof. intros Hi. simpl. rewrite Hi. apply handleAiQuery_resume_resets. Qed.

Lemma settled_refresh_resets i o st :
  suspended st !! i = Some RefreshDocs →
  isProcessing (step (SettleRefreshDocs i o) st) = false.
Proof. intros Hi. simpl. rewrite Hi. apply handleRefreshDocs_resume_resets. Qed.

Lemma raised_is_reported message st :
  panel st = true →
  posted (handleAiQuery_resume (Raised message) st).2
  = posted st ++ [AiResponse
       ("I encountered an error while processing your request: " +:+ message
        +:+ ". Please try again.") "error" false].
Proof.
  intros Hp. unfold handleAiQuery_resume, try_catch_finally, postMessage,
    mbind, M_bind, read, modify, throw. simpl. by rewrite Hp.
Qed.

Lemma stuck_step e st :
  isProcessing st = true ∧ suspended st = [] →
  isProcessing (step e st) = true ∧ suspended (step e st) = [].
Proof.
  intros [Hbusy Hnone]. destruct e as [query| |i o|i o| |].
  - rewrite (busy_call st (CallAiQuery query) _ Hbusy
               (or_introl (ex_intro _ query (conj eq_refl eq_refl)))).
    by split.
  - rewrite (busy_call st CallRefreshDocs _ Hbusy
               (or_intror (conj eq_refl eq_refl))).
    by split.
  - simpl. by rewrite Hnone.
  - simpl. by rewrite Hnone.
  - done.
  - done.
Qed.

(** C10.  [handleAiQuery] on a panel object whose [panel] is [null] (as the
    constructor leaves it, and [dispose] after a [createOrShow]): the flag is
    set and the query recorded, then posting the processing message throws
    before the [try] is entered.  Nothing is left that would reset the flag;
    from then on it stays set whatever is called, and a request made once the
    panel is shown again is answered with the still-processing message. *)
Theorem handleAiQuery_without_panel_stays_busy (query : string) :
  let st := step (CallAiQuery query) new in
  handleAiQuery_begin query new
  = (inr "Cannot read properties of null (reading 'webview')", st) ∧
  isProcessing st = true ∧
  messageHistory st = [{| role := "user"; content := query |}] ∧
  suspended st = [] ∧
  step (CallAiQuery query) (run [CreateOrShow; Dispose] new) = st ∧
  (∀ later, isProcessing (run later st) = true ∧ suspended (run later st) = []) ∧
  (∀ next, posted (step (CallAiQuery next) (step CreateOrShow st))
     = [AiResponse
          "I'm still processing your previous request. Please wait a moment..."
          "info" false]).
Proof.
  intros st. split_and!; try done.
  intros later. assert (isProcessing st = true ∧ suspended st = []) as Hst by done.
  revert Hst. generalize st. clear st.
  induction later as [|e later IH]; intros st Hst; [done|].
  simpl. by apply IH, stuck_step.
Qed.
End panel_facts.

(** ** The webview script *)

Section script_facts.
Import WebviewScript.

End script_facts.

(** * Further properties *)

(** ** The differ: entries, repeated runs, failures *)

Section differ_more.
Import DocDiffer.
Implicit Types previous latest : gmap string Doc.

(** Every entry of the latest snapshot is classified in exactly one way, and
    the result carries the entries themselves: a new key holds the latest
    entry, an updated key the latest entry with the previous content, an
    unchanged key is in neither; a removed key holds the previous entry.  The
    three counts are the sizes of the three dictionaries. *)
Theorem findDifferences_entries previous latest :
  is_snapshot previous → is_snapshot latest →
  let d := findDifferences previous latest in
  (∀ k b, latest !! k = Some b →
     match previous !! k with
     | None =>
         newDocs d !! k = Some b ∧ updatedDocs d !! k = None
     | Some a =>
         newDocs d !! k = None ∧
         updatedDocs d !! k
         = (if bool_decide (doc_content a = doc_content b) then None
            else Some {| latest_doc := b;
                         previousContent := Some (doc_content a) |})
     end) ∧
  (∀ k a, previous !! k = Some a →
     removedDocs d !! k = (if bool_decide (k ∈ dom latest) then None else Some a)) ∧
  (∀ k, latest !! k = None → newDocs d !! k = None ∧ updatedDocs d !! k = None) ∧
  (∀ k, previous !! k = None → removedDocs d !! k = None) ∧
  newCount d = size (newDocs d) ∧ updatedCount d = size (updatedDocs d) ∧
  removedCount d = size (removedDocs d) ∧
  newCount d + updatedCount d ≤ size latest ∧
  removedCount d ≤ size previous.
Proof.
  intros Hp%snapshot_own_keys Hl%snapshot_own_keys d. subst d.
  split_and!; try done.
  - intros k b Hb. rewrite newDocs_lookup, updatedDocs_lookup, Hb.
    assert (k ∉ JS.object_prototype_names) as Hk by (apply Hl, elem_of_dom; eauto).
    unfold JS.get. destruct (previous !! k) as [a|] eqn:Ha; simpl.
    + split; [done|]. repeat case_bool_decide; try done; congruence.
    + by rewrite (bool_decide_eq_false_2 _ Hk).
  - intros k a Ha. rewrite removedDocs_lookup, Ha.
    rewrite truthy_get_own by (apply Hp, elem_of_dom; eauto). done.
  - intros k Hk. rewrite newDocs_lookup, updatedDocs_lookup, Hk.
    by destruct (JS.truthy _).
  - intros k Hk. rewrite removedDocs_lookup, Hk. by destruct (JS.truthy _).
  - change (newCount (findDifferences previous latest))
      with (size (newDocs (findDifferences previous latest))).
    change (updatedCount (findDifferences previous latest))
      with (size (updatedDocs (findDifferences previous latest))).
    rewrite <- !size_dom, <- size_union.
    + apply subseteq_size. intros k [Hk|Hk]%elem_of_union.
      * rewrite newDocs_dom in Hk by done. by apply elem_of_difference in Hk as [? _].
      * apply updatedDocs_dom in Hk as (a & b & _ & Hb & _); [|done].
        apply elem_of_dom. eauto.
    + intros k Hn Hu. rewrite newDocs_dom in Hn by done.
      apply elem_of_difference in Hn as [_ Hn].
      apply updatedDocs_dom in Hu as (a & b & Ha & _); [|done].
      apply Hn, elem_of_dom. eauto.
  - change (removedCount (findDifferences previous latest))
      with (size (removedDocs (findDifferences previous latest))).
    rewrite <- !size_dom.
    apply subseteq_size. rewrite removedDocs_dom by done.
    intros k Hk. by apply elem_of_difference in Hk as [? _].
Qed.
Lemma findDifferences_entries_witness :
  newDocs (findDifferences Samples.snapshotA Samples.snapshotB)
    !! "tailwind:Flexbox"
  = Some (Samples.doc "tailwind" "Flexbox" "flex").
Proof.
  assert (is_snapshot Samples.snapshotA) as HA.
  { apply (is_snapshot_insert _ "nextjs" "Routing").
    apply (is_snapshot_insert _ "nextjs" "Caching").
    apply (is_snapshot_insert _ "nextjs" "Gone").
    apply is_snapshot_empty. }
  assert (is_snapshot Samples.snapshotB) as HB.
  { apply (is_snapshot_insert _ "nextjs" "Routing").
    apply (is_snapshot_insert _ "nextjs" "Caching").
    apply (is_snapshot_insert _ "tailwind" "Flexbox").
    apply is_snapshot_empty. }
  destruct (findDifferences_entries _ _ HA HB) as (Hlatest & _).
  by destruct (Hlatest "tailwind:Flexbox" _ eq_refl) as [Hnew _].
Defined.

(** *** The clock only stamps the entries *)

Definition restamp (now : string) (d : Doc) : Doc :=
  {| doc_title := doc_title d; doc_content := doc_content d;
     doc_source := doc_source d; doc_type := doc_type d;
     doc_url := doc_url d; doc_timestamp := now |}.

Lemma visit_all_restamp source now now' matched acc :
  foldl (visit_heading source now') (restamp now' <$> acc) matched
  = restamp now' <$> foldl (visit_heading source now) acc matched.
Proof.
  revert acc. induction matched as [|h matched IH]; intros acc; [done|].
  simpl. rewrite <- IH. f_equal. unfold visit_heading.
  destruct (_ && _); [|done]. by rewrite fmap_insert.
Qed.

Lemma fetchLatestDocs_restamp source now now' resp :
  fetchLatestDocs source now' resp
  = restamp now' <$> fetchLatestDocs source now resp.
Proof.
  destruct resp as [|matched]; simpl; [by rewrite fmap_empty|].
  rewrite <- visit_all_restamp. by rewrite fmap_empty.
Qed.

Lemma merge_results_restamp now' (rs : list (gmap string Doc)) acc :
  foldl (λ latestDocs result, result ∪ latestDocs) (restamp now' <$> acc)
        (fmap (M := list) (fmap (restamp now')) rs)
  = restamp now' <$> foldl (λ latestDocs result, result ∪ latestDocs) acc rs.
Proof.
  revert acc. induction rs as [|r rs IH]; intros acc; [done|].
  simpl. rewrite <- IH. by rewrite map_fmap_union.
Qed.

Lemma fetch_all_restamp w w' sources :
  (∀ u, respond w' u = respond w u) →
  fetch_all w' sources = restamp (clock w') <$> fetch_all w sources.
Proof.
  intros Hsame. unfold fetch_all, merge_results.
  rewrite <- merge_results_restamp, fmap_empty. f_equal.
  rewrite <- list_fmap_compose. apply list_fmap_ext. intros _ s _. simpl.
  rewrite Hsame. apply fetchLatestDocs_restamp.
Qed.

Lemma processDocs_succeeds sourceTypes w st :
  sourcesToProcess sourceTypes ≠ [] → write_error w = None →
  let latest := fetch_all w (sourcesToProcess sourceTypes) in
  let d := findDifferences (previousDocs st) latest in
  let mergedDocs := merge_docs (previousDocs st) d latest in
  processDocs sourceTypes w st
  = (Success {| latestDocs := mergedDocs; differences := d;
                processedSources := map name (sourcesToProcess sourceTypes) |},
     {| previousDocs := mergedDocs; docsFile := Some mergedDocs |}).
Proof.
  intros Hsrc Hwrite. unfold processDocs. rewrite Hwrite.
  by destruct (sourcesToProcess sourceTypes).
Qed.

Lemma second_differences previous latest now' :
  let merged := merge_docs previous (findDifferences previous latest) latest in
  let latest' := restamp now' <$> latest in
  let d' := findDifferences merged latest' in
  newDocs d' = ∅ ∧ updatedDocs d' = ∅ ∧ removedDocs d' = ∅ ∧
  dom (merge_docs merged d' latest') = dom merged.
Proof.
  intros merged latest' d'. subst d'.
  assert (∀ k, merged !! k
               = match latest !! k with
                 | Some d => Some d
                 | None => if JS.truthy (JS.get latest k)
                           then previous !! k else None
                 end) as Hmerged.
  { intros k. apply merge_docs_lookup. }
  assert (∀ k, JS.truthy (JS.get latest' k) = JS.truthy (JS.get latest k)) as Htruthy.
  { intros k. unfold JS.get, latest'. rewrite lookup_fmap.
    by destruct (latest !! k). }
  assert (removedDocs (findDifferences merged latest') = ∅) as Hrem.
  { apply map_eq. intros k. rewrite removedDocs_lookup, lookup_empty, Htruthy.
    destruct (JS.truthy (JS.get latest k)) eqn:Et; [done|].
    rewrite Hmerged. destruct (latest !! k) as [d|] eqn:Ek.
    - unfold JS.get in Et. by rewrite Ek in Et.
    - by rewrite Et. }
  split_and!.
  - apply map_eq. intros k. rewrite newDocs_lookup, lookup_empty.
    destruct (JS.truthy (JS.get merged k)) eqn:Et; [done|].
    unfold latest'. rewrite lookup_fmap.
    destruct (latest !! k) as [d|] eqn:Ek; [|done].
    unfold JS.get in Et. by rewrite Hmerged, Ek in Et.
  - apply map_eq. intros k. rewrite updatedDocs_lookup, lookup_empty.
    unfold latest'. rewrite lookup_fmap.
    destruct (latest !! k) as [d|] eqn:Ek; [|done]. simpl.
    unfold JS.get. rewrite Hmerged, Ek. simpl.
    by rewrite bool_decide_eq_false_2 by (by intros Hne).
  - done.
  - rewrite merge_docs_eq, Hrem, map_difference_empty.
    apply set_eq. intros k. rewrite dom_union_L, elem_of_union.
    unfold latest'. rewrite dom_fmap_L. split; [|by right].
    intros [Hk|Hk]; [|done].
    apply elem_of_dom. rewrite Hmerged.
    apply elem_of_dom in Hk as [d ->]. eauto.
Qed.

(** Refreshing again when the sites have not changed finds nothing new,
    nothing updated and nothing removed, whatever the clock says and whatever
    was stored before the first refresh; the stored keys stay the same. *)
Theorem processDocs_again (sourceTypes : list string) (w w' : World)
    (st st' : State) (r : ProcessSuccess) :
  processDocs sourceTypes w st = (Success r, st') →
  (∀ u, respond w' u = respond w u) →
  write_error w' = None →
  ∃ r' st'',
    processDocs sourceTypes w' st' = (Success r', st'') ∧
    newDocs (differences r') = ∅ ∧
    updatedDocs (differences r') = ∅ ∧
    removedDocs (differences r') = ∅ ∧
    newCount (differences r') = 0 ∧ updatedCount (differences r') = 0 ∧
    removedCount (differences r') = 0 ∧
    dom (latestDocs r') = dom (latestDocs r).
Proof.
  intros Hrun Hsame Hwrite.
  apply processDocs_success in Hrun as (Hsrc & _ & _ & Hm & _ & Hprev & _).
  rewrite (processDocs_succeeds sourceTypes w' st' Hsrc Hwrite).
  eexists _, _. split; [reflexivity|].
  rewrite (fetch_all_restamp w w') by done. rewrite Hprev, Hm.
  destruct (second_differences (previousDocs st)
              (fetch_all w (sourcesToProcess sourceTypes)) (clock w'))
    as (Hnew & Hupd & Hrem & Hdom).
  pose proof (f_equal size Hnew) as Hn. pose proof (f_equal size Hupd) as Hu.
  pose proof (f_equal size Hrem) as Hr.
  rewrite map_size_empty in Hn. rewrite map_size_empty in Hu.
  rewrite map_size_empty in Hr.
  split_and!; [exact Hnew|exact Hupd|exact Hrem|exact Hn|exact Hu|exact Hr|].
  exact Hdom.
Qed.

Lemma processDocs_again_witness :
  ∃ r' st'',
    processDocs [] Samples.world
      (processDocs [] Samples.world (new (Some Samples.snapshotA))).2
    = (Success r', st'') ∧
    newCount (differences r') = 0 ∧ updatedCount (differences r') = 0 ∧
    removedCount (differences r') = 0.
Proof.
  destruct (processDocs_again [] Samples.world Samples.world
              (new (Some Samples.snapshotA)) _ _ eq_refl (λ _, eq_refl) eq_refl)
    as (r' & st'' & Hrun & _ & _ & _ & Hn & Hu & Hr & _).
  exists r', st''. by split_and!.
Defined.

(** *** Which runs succeed *)

(** [processDocs] succeeds exactly when a known source is asked for (or none
    in particular) and the snapshot file can be written.  A run that fails
    leaves the stored snapshot and the file as they were, with the message of
    the write error, a stock message when that is empty, or the message about
    the sources.  The sources processed are reported in the order of
    [docSources], each once, however they were asked for. *)
Theorem processDocs_outcome (sourceTypes : list string) (w : World) (st : State) :
  match processDocs sourceTypes w st with
  | (Success r, st') =>
      (sourceTypes = [] ∨ ("nextjs" ∈ sourceTypes) ∨ ("tailwind" ∈ sourceTypes)) ∧
      write_error w = None ∧
      sublist (processedSources r)
              ["Next.js Documentation"; "Tailwind CSS Documentation"] ∧
      ("nextjs" ∈ sourceTypes → "Next.js Documentation" ∈ processedSources r) ∧
      ("tailwind" ∈ sourceTypes → "Tailwind CSS Documentation" ∈ processedSources r)
  | (Failure e, st') =>
      st' = st ∧
      ((sourceTypes ≠ [] ∧ ("nextjs" ∉ sourceTypes) ∧ ("tailwind" ∉ sourceTypes) ∧
        e = "No valid documentation sources specified")
       ∨ (∃ m, write_error w = Some m ∧
               e = if JS.truthy_string m then m
                   else "Unknown error processing documentation"))
  end.
Proof.
  unfold processDocs, sourcesToProcess.
  destruct sourceTypes as [|t ts].
  { simpl. destruct (write_error w) as [m|].
    - split; [done|]. right. by exists m.
    - split_and!; [by left|done|done|by intros ?%elem_of_nil..]. }
  unfold docSources. rewrite !filter_cons, filter_nil. simpl.
  destruct (decide ("nextjs" ∈ t :: ts)) as [Hn|Hn];
    destruct (decide ("tailwind" ∈ t :: ts)) as [Ht|Ht]; simpl.
  - destruct (write_error w) as [m|].
    + split; [done|]. right. by exists m.
    + split_and!; [by right; left|done|done|intros _; by left
                  |intros _; right; by left].
  - destruct (write_error w) as [m|].
    + split; [done|]. right. by exists m.
    + split_and!; [by right; left|done| |intros _; by left|done].
      apply sublist_skip, sublist_cons, sublist_nil.
  - destruct (write_error w) as [m|].
    + split; [done|]. right. by exists m.
    + split_and!; [by right; right|done| |done|intros _; by left].
      apply sublist_cons, sublist_skip, sublist_nil.
  - split; [done|]. left. by split_and!.
Qed.

(** *** What goes to the vector store *)

Lemma chroma_fold (m : gmap string Doc) :
  (∀ k1 d1 k2 d2, m !! k1 = Some d1 → m !! k2 = Some d2 →
     formattedTitle d1 = formattedTitle d2 → doc_content d1 = doc_content d2) →
  let formatted : gmap string string :=
    map_fold (λ (key : string) doc formattedDocs,
                <[formattedTitle doc := doc_content doc]> formattedDocs) ∅ m in
  (∀ k d, m !! k = Some d →
     formatted !! formattedTitle d = Some (doc_content d)) ∧
  (∀ t c, formatted !! t = Some c →
     ∃ k d, m !! k = Some d ∧ t = formattedTitle d ∧ c = doc_content d).
Proof.
  apply (map_fold_weak_ind (λ (formatted : gmap string string) m,
    (∀ k1 d1 k2 d2, m !! k1 = Some d1 → m !! k2 = Some d2 →
       formattedTitle d1 = formattedTitle d2 → doc_content d1 = doc_content d2) →
    (∀ k d, m !! k = Some d →
       formatted !! formattedTitle d = Some (doc_content d)) ∧
    (∀ t c, formatted !! t = Some c →
       ∃ k d, m !! k = Some d ∧ t = formattedTitle d ∧ c = doc_content d))).
  - intros _. split.
    + intros k d. by rewrite lookup_empty.
    + intros t c. by rewrite lookup_empty.
  - intros i x m' r Hi IH Hagree.
    destruct IH as [IH1 IH2].
    { intros k1 d1 k2 d2 H1 H2. apply (Hagree k1 d1 k2 d2).
      - rewrite lookup_insert_ne; [done|]. intros ->. by rewrite Hi in H1.
      - rewrite lookup_insert_ne; [done|]. intros ->. by rewrite Hi in H2. }
    split.
    + intros k d Hk.
      destruct (decide (formattedTitle x = formattedTitle d)) as [Heq|Hne].
      * rewrite Heq, lookup_insert_eq. f_equal.
        apply (Hagree i x k d); [by rewrite lookup_insert_eq|done|done].
      * rewrite lookup_insert_ne by done.
        destruct (decide (i = k)) as [->|Hik].
        -- rewrite lookup_insert_eq in Hk. by injection Hk as ->.
        -- rewrite lookup_insert_ne in Hk by done. by apply (IH1 k).
    + intros t c Ht.
      destruct (decide (formattedTitle x = t)) as [<-|Hne].
      * rewrite lookup_insert_eq in Ht. injection Ht as <-.
        exists i, x. by rewrite lookup_insert_eq.
      * rewrite lookup_insert_ne in Ht by done.
        destruct (IH2 t c Ht) as (k & d & Hk & -> & ->).
        exists k, d. split; [|done].
        rewrite lookup_insert_ne; [done|]. intros ->. by rewrite Hi in Hk.
Qed.

Lemma formattedTitle_inj (s s' : Source) (t t' : string) now now' c c' :
  s ∈ docSources → s' ∈ docSources →
  formattedTitle (entry_of s now t c) = formattedTitle (entry_of s' now' t' c') →
  s = s' ∧ t = t'.
Proof.
  unfold docSources. intros Hs Hs'.
  repeat (apply elem_of_cons in Hs as [-> | Hs]);
    [..|by apply elem_of_nil in Hs];
    (repeat (apply elem_of_cons in Hs' as [-> | Hs']);
     [..|by apply elem_of_nil in Hs']);
    unfold formattedTitle; simpl; intros [= ?]; by subst.
Qed.

(** After a successful refresh of a stored snapshot, [getDocsForChroma] holds
    the content of every stored entry under the upper-cased type, a colon, a
    space and the title, and nothing else: no two entries share a formatted
    title, so none is lost on the way to the vector store. *)
Theorem getDocsForChroma_after_refresh (sourceTypes : list string) (w : World)
    (st st' : State) (r : ProcessSuccess) :
  is_snapshot (previousDocs st) →
  processDocs sourceTypes w st = (Success r, st') →
  (∀ k d, previousDocs st' !! k = Some d →
     getDocsForChroma st'
       !! (JS.toUpperCase (doc_type d) +:+ ": " +:+ doc_title d)
     = Some (doc_content d)) ∧
  (∀ t c, getDocsForChroma st' !! t = Some c →
     ∃ k d, previousDocs st' !! k = Some d ∧
            t = JS.toUpperCase (doc_type d) +:+ ": " +:+ doc_title d ∧
            c = doc_content d) ∧
  size (getDocsForChroma st') = size (previousDocs st').
Proof.
  intros Hp%snapshot_own_keys Hrun.
  apply processDocs_success in Hrun as (_ & _ & _ & Hm & _ & Hprev & _).
  rewrite merge_docs_latest in Hm by done.
  assert (∀ k1 d1 k2 d2,
            previousDocs st' !! k1 = Some d1 → previousDocs st' !! k2 = Some d2 →
            formattedTitle d1 = formattedTitle d2 → k1 = k2) as Hinj.
  { rewrite Hprev, Hm. intros k1 d1 k2 d2 H1 H2 Heq.
    apply fetch_all_lookup in H1 as (s1 & Hs1 & H1).
    apply fetch_all_lookup in H2 as (s2 & Hs2 & H2).
    apply fetchLatestDocs_lookup in H1 as (? & h1 & _ & _ & _ & _ & -> & ->).
    apply fetchLatestDocs_lookup in H2 as (? & h2 & _ & _ & _ & _ & -> & ->).
    apply formattedTitle_inj in Heq as [-> ->];
      [done|by eapply sourcesToProcess_docSources..]. }
  destruct (chroma_fold (previousDocs st')) as [Hin Hout].
  { intros k1 d1 k2 d2 H1 H2 Heq.
    assert (k1 = k2) as -> by eauto. congruence. }
  split_and!; [exact Hin|exact Hout|].
  unfold getDocsForChroma.
  apply (map_fold_weak_ind (λ (formatted : gmap string string) m,
    (∀ k1 d1 k2 d2, m !! k1 = Some d1 → m !! k2 = Some d2 →
       formattedTitle d1 = formattedTitle d2 → k1 = k2) →
    size formatted = size m ∧
    ∀ t, formatted !! t ≠ None → ∃ k d, m !! k = Some d ∧ t = formattedTitle d));
    [..|exact Hinj].
  - intros _. rewrite !map_size_empty. split; [done|].
    intros t. by rewrite lookup_empty.
  - intros i x m' f Hi IH Hinj'.
    destruct IH as [IHsize IHdom].
    { intros k1 d1 k2 d2 H1 H2. apply (Hinj' k1 d1 k2 d2).
      - rewrite lookup_insert_ne; [done|]. intros ->. by rewrite Hi in H1.
      - rewrite lookup_insert_ne; [done|]. intros ->. by rewrite Hi in H2. }
    split.
    + rewrite !map_size_insert_None; [by rewrite IHsize|done|].
      destruct (f !! formattedTitle x) as [c|] eqn:Ef; [|done].
      destruct (IHdom (formattedTitle x)) as (k & d & Hk & Heq);
        [by rewrite Ef|].
      assert (i = k) as ->.
      { apply (Hinj' i x k d); [by rewrite lookup_insert_eq| |done].
        rewrite lookup_insert_ne; [done|]. intros ->. by rewrite Hi in Hk. }
      by rewrite Hi in Hk.
    + intros t Ht. destruct (decide (formattedTitle x = t)) as [<-|Hne].
      * exists i, x. by rewrite lookup_insert_eq.
      * rewrite lookup_insert_ne in Ht by done.
        destruct (IHdom t Ht) as (k & d & Hk & ->).
        exists k, d. split; [|done].
        rewrite lookup_insert_ne; [done|]. intros ->. by rewrite Hi in Hk.
Qed.
Lemma getDocsForChroma_after_refresh_witness :
  ∃ r st',
    processDocs [] Samples.world (new None) = (Success r, st') ∧
    size (getDocsForChroma st') = size (previousDocs st').
Proof.
  eexists _, _. split; [reflexivity|].
  by destruct (getDocsForChroma_after_refresh [] Samples.world (new None) _ _
                 is_snapshot_empty eq_refl) as (_ & _ & Hsize).
Defined.

(** *** What a heading's content is made of *)

(** With paragraphs as content, the content of a heading is made of the
    siblings before the next heading: whatever follows that heading plays no
    part. *)
Theorem content_stops_at_next_heading (source : Source) (text : string)
    (before after : list Element) (next : Element) :
  contentSelector source = "p" →
  el_is next (selector source) = true →
  heading_content source {| h_text := text; h_next := before ++ next :: after |}
  = heading_content source {| h_text := text; h_next := before |}.
Proof.
  intros Hp Hnext. unfold heading_content. rewrite Hp. simpl. f_equal.
  induction before as [|e before IH]; simpl.
  - by rewrite Hnext.
  - destruct (el_is e (selector source)); [done|].
    destruct (el_is e "p"); [by rewrite IH|done].
Qed.

Lemma content_stops_at_next_heading_witness :
  heading_content tailwind
    {| h_text := "Flexbox";
       h_next := [Samples.paragraph "Use flex."] ++
                 Samples.subheading "Grid" :: [Samples.paragraph "Use grid."] |}
  = "Use flex.".
Proof.
  rewrite (content_stops_at_next_heading tailwind "Flexbox"
             [Samples.paragraph "Use flex."] [Samples.paragraph "Use grid."]
             (Samples.subheading "Grid") eq_refl eq_refl).
  reflexivity.
Defined.



End differ_more.

(** ** The usage store and the paywall *)

Section storage_more.
Import StorageManager.




(** *** The paywall *)

Import PaywallManager.









Lemma unknown_plan_undefined (p : string) :
  p ∉ ["free"; "pro"; "team"] → p ∉ JS.object_prototype_names →
  JS.get usageQuotas p = JS.Undefined.
Proof.
  intros Hp Hproto. unfold JS.get, usageQuotas.
  rewrite !lookup_insert_ne, lookup_empty.
  - by rewrite bool_decide_eq_false_2.
  - intros <-. apply Hp. do 2 right. by left.
  - intros <-. apply Hp. right. by left.
  - intros <-. apply Hp. by left.
Qed.

(** With a stored plan that is none of the three, a check of a completion, of
    a refresh or of the context depth throws instead of answering, after the
    day's reset if one was due and with no counter incremented; a check of
    any other feature is allowed and increments nothing either. *)
Theorem unknown_plan_throws (feature today : string) (data : UserData) :
  plan data ∉ ["free"; "pro"; "team"] →
  plan data ∉ JS.object_prototype_names →
  let daily := getDailyUsage today (Some data) in
  (feature ∈ ["completion"; "docRefresh"; "contextDepth"] →
     ∃ thrown, checkAndIncrementUsage feature today (Some data)
               = (inr thrown, file_after daily)) ∧
  (feature ∉ ["completion"; "docRefresh"; "contextDepth"] →
     checkAndIncrementUsage feature today (Some data)
     = (inl Allowed, file_after daily)).
Proof.
  intros Hp Hproto daily. subst daily. unfold checkAndIncrementUsage.
  assert (getUserPlan today (Some data) = plan data) as -> by done.
  rewrite (unknown_plan_undefined _ Hp Hproto). simpl. split.
  - intros Hf. repeat case_bool_decide; eauto.
    exfalso. repeat (apply elem_of_cons in Hf as [->|Hf]; [done|]).
    by apply elem_of_nil in Hf.
  - intros Hf. repeat case_bool_decide; try done; subst; exfalso; apply Hf.
    + by left.
    + right. by left.
    + do 2 right. by left.
Qed.

Lemma unknown_plan_throws_witness :
  ∃ thrown,
    checkAndIncrementUsage "completion" "2024-08-12"
      (Some {| plan := "enterprise"; usage := usage Samples.free_at_49 |})
    = (inr thrown,
       Some {| plan := "enterprise"; usage := usage Samples.free_at_49 |}).
Proof.
  destruct (unknown_plan_throws "completion" "2024-08-12"
              {| plan := "enterprise"; usage := usage Samples.free_at_49 |})
    as [Hthrows _].
  - intros Hin. repeat (apply elem_of_cons in Hin as [[=]|Hin]).
    by apply elem_of_nil in Hin.
  - intros Hin. unfold JS.object_prototype_names in Hin.
    repeat (apply elem_of_cons in Hin as [[=]|Hin]).
    by apply elem_of_nil in Hin.
  - apply Hthrows. by left.
Defined.
End storage_more.

(** ** The extractor: cache hits, eviction order, freshness, batches *)

Section extractor_more.
Import ContextExtractor.

Lemma map_get_set {V} (m : JS.Map V) key value :
  JS.map_get (JS.map_set m key value) key = Some value.
Proof.
  induction m as [|[k v] m IH]; simpl.
  - by rewrite bool_decide_eq_true_2.
  - case_bool_decide as Hk; simpl.
    + by rewrite bool_decide_eq_true_2.
    + by rewrite bool_decide_eq_false_2.
Qed.

Lemma map_has_set {V} (m : JS.Map V) key value :
  JS.map_has (JS.map_set m key value) key = true.
Proof.
  unfold JS.map_has. apply bool_decide_eq_true.
  induction m as [|[k v] m IH]; simpl.
  - by left.
  - case_bool_decide as Hk; simpl; [subst; by left|by right].
Qed.

Lemma map_has_get {V} (m : JS.Map V) key :
  JS.map_has m key = true → is_Some (JS.map_get m key).
Proof.
  unfold JS.map_has. intros Hin%bool_decide_eq_true.
  induction m as [|[k v] m IH]; simpl in *.
  - by apply elem_of_nil in Hin.
  - case_bool_decide; [eauto|].
    apply elem_of_cons in Hin as [->|Hin]; [done|by apply IH].
Qed.

(** Looking at the same editor state twice gives the same context the second
    time, from the cache, and leaves the extractor as the first look left
    it (with no editor: no context, both times). *)
Theorem extract_twice (editor : option Editor) (st : State) :
  let first := extractActiveEditorContext editor st in
  extractActiveEditorContext editor first.2 = (first.1, first.2) ∧
  (is_Some first.1 ↔ is_Some editor).
Proof.
  unfold extractActiveEditorContext. destruct editor as [e|]; simpl.
  2:{ split; [done|]. split; by intros [? ?]. }
  destruct (JS.map_has (contextQueries st) (contextCacheKey e)) eqn:Hhas; simpl.
  - rewrite Hhas. split; [done|].
    split; [by eauto|]. intros _. by apply map_has_get.
  - unfold store. rewrite map_has_set, map_get_set. split; [done|].
    split; eauto.
Qed.
(** *** Eviction order *)

Lemma map_set_keys {V} (m : JS.Map V) key value :
  (JS.map_set m key value).*1
  = if bool_decide (key ∈ m.*1) then m.*1 else m.*1 ++ [key].
Proof.
  induction m as [|[k v] m IH]; [done|].
  cbn [JS.map_set]. rewrite !fmap_cons. cbn [fst].
  destruct (decide (k = key)) as [->|Hk].
  - rewrite bool_decide_eq_true_2 by done. rewrite fmap_cons.
    by rewrite bool_decide_eq_true_2 by (apply elem_of_cons; by left).
  - rewrite (bool_decide_eq_false_2 (k = key)) by done.
    rewrite fmap_cons, IH. cbn [fst].
    destruct (decide (key ∈ m.*1)) as [Hin|Hin].
    + rewrite !bool_decide_eq_true_2; [done|apply elem_of_cons; by right|done].
    + rewrite !bool_decide_eq_false_2; [done| |done].
      rewrite elem_of_cons. intros [?|?]; by subst.
Qed.

Lemma map_set_fresh {V} (m : JS.Map V) key value :
  key ∉ m.*1 → JS.map_set m key value = m ++ [(key, value)].
Proof.
  induction m as [|[k v] m IH]; simpl; [done|].
  intros Hk. rewrite bool_decide_eq_false_2.
  - rewrite IH; [done|]. intros ?. apply Hk. by right.
  - intros ->. apply Hk. by left.
Qed.

Lemma map_delete_first {V} (k : string) (v : V) (m : JS.Map V) :
  k ∉ m.*1 →
  JS.map_delete ((k, v) :: m) (JS.map_first_key ((k, v) :: m)) = m.
Proof.
  intros Hk. unfold JS.map_delete, JS.map_first_key, JS.Map in *.
  rewrite filter_cons, decide_False by (simpl; intros Hne; by apply Hne).
  induction m as [|[k' v'] m IH]; [done|].
  rewrite filter_cons, decide_True.
  - f_equal. apply IH. intros ?. apply Hk. rewrite fmap_cons. by right.
  - simpl. intros ->. apply Hk. rewrite fmap_cons. by left.
Qed.

Lemma store_keys_NoDup {V} limit (m : JS.Map V) key value :
  NoDup m.*1 → NoDup (store limit m key value).*1.
Proof.
  intros Hm. unfold store.
  set (m' := if bool_decide (limit < JS.map_size m)
             then JS.map_delete m (JS.map_first_key m) else m).
  assert (NoDup m'.*1) as Hm'.
  { subst m'. destruct (bool_decide (limit < JS.map_size m)); [|exact Hm].
    destruct m as [|[k v] m]; [apply NoDup_nil_2|].
    rewrite fmap_cons in Hm. apply NoDup_cons in Hm as [Hk Hm].
    by rewrite map_delete_first. }
  clearbody m'. cbv zeta. rewrite map_set_keys.
  destruct (decide (key ∈ m'.*1)) as [Hin|Hin].
  - by rewrite bool_decide_eq_true_2.
  - rewrite bool_decide_eq_false_2 by done.
    apply NoDup_app. split_and!; [done| |apply NoDup_singleton].
    by intros k Hk ->%list_elem_of_singleton.
Qed.

Definition distinct_keys (st : State) : Prop :=
  NoDup (contextQueries st).*1 ∧ NoDup (relevantDocs st).*1.

Lemma call_distinct_keys c st : distinct_keys st → distinct_keys (call c st).
Proof.
  intros [Hc Hr].
  assert (∀ answers st, distinct_keys st →
            distinct_keys (initializeCollection answers st)) as Hinit.
  { intros [] ? ?; done. }
  assert (∀ editor st, distinct_keys st →
            distinct_keys (extractActiveEditorContext editor st).2) as Hext.
  { intros editor st0 [Hc0 Hr0]. unfold extractActiveEditorContext.
    destruct editor as [e|]; [|done].
    destruct (JS.map_has _ _); [done|]. split; [|done].
    by apply store_keys_NoDup. }
  assert (∀ context n w st, distinct_keys st →
            distinct_keys (findRelevantDocs context n w st).2) as Hfind.
  { intros context n w st0 Hst0. unfold findRelevantDocs.
    set (st1 := if collection st0 then st0 else _).
    assert (distinct_keys st1) as [Hc1 Hr1].
    { subst st1. destruct (collection st0); [done|]. by apply Hinit. }
    destruct (negb (collection st1)); [done|].
    destruct (_ && _); [done|].
    destruct (query_documents w); [|done].
    split; [done|]. by apply store_keys_NoDup. }
  destruct c as [answers|editor|context n w|n editor w|w delete_throws]; simpl.
  - by apply Hinit.
  - by apply Hext.
  - by apply Hfind.
  - unfold getContextAndDocs.
    pose proof (Hext editor st (conj Hc Hr)) as H1.
    destruct (extractActiveEditorContext editor st) as [[context|] st1];
      simpl in H1; [|done].
    destruct (_ && _); [done|].
    pose proof (Hfind context n w st1 H1) as H2.
    destruct (findRelevantDocs context n w st1) as [found st2].
    simpl in H2. destruct H2 as [Hc2 Hr2].
    split; [done|]. by apply store_keys_NoDup.
  - unfold updateCollection.
    set (st1 := if collection st then st else _).
    assert (distinct_keys st1).
    { subst st1. destruct (collection st); [done|]. by apply Hinit. }
    destruct (negb (collection st1)); [done|].
    destruct delete_throws; [done|]. split; apply NoDup_nil_2.
Qed.

Lemma run_distinct_keys calls : distinct_keys (run calls new).
Proof.
  unfold run. assert (distinct_keys new) as Hnew by (split; apply NoDup_nil_2).
  revert Hnew. generalize new.
  induction calls as [|c calls IH]; intros st Hst; [done|].
  simpl. by apply IH, call_distinct_keys.
Qed.

(** Whatever was called before, when the context cache holds more than fifty
    entries and an editor state not yet in it is looked at, the entry dropped
    is the one stored first, and the new one goes to the end: the cache is
    first in, first out. *)
Theorem context_cache_first_in_first_out (calls : list Call) (e : Editor) :
  let st := run calls new in
  JS.map_has (contextQueries st) (contextCacheKey e) = false →
  50 < JS.map_size (contextQueries st) →
  ∃ context,
    extractActiveEditorContext (Some e) st
    = (Some context,
       {| collection := collection st; relevantDocs := relevantDocs st;
          contextQueries := tail (contextQueries st) ++ [(contextCacheKey e, context)];
          lastUpdated := lastUpdated st |}).
Proof.
  intros st Hfresh Hfull. destruct (run_distinct_keys calls) as [Hnodup _].
  fold st in Hnodup. unfold extractActiveEditorContext. rewrite Hfresh.
  eexists. f_equal. f_equal. unfold store.
  rewrite bool_decide_eq_true_2 by done.
  destruct (contextQueries st) as [|[k v] m] eqn:Em.
  { simpl in Hfull. lia. }
  simpl in Hnodup. apply NoDup_cons in Hnodup as [Hk Hm].
  rewrite map_delete_first by done. simpl tail.
  apply map_set_fresh.
  apply bool_decide_eq_false in Hfresh. intros Hin. apply Hfresh.
  simpl. by right.
Qed.

Lemma context_cache_first_in_first_out_witness :
  let st := run Samples.fifty_one_extractions new in
  ∃ context,
    (extractActiveEditorContext (Some (Samples.editor_at 52)) st).1 = Some context ∧
    (contextQueries (extractActiveEditorContext (Some (Samples.editor_at 52)) st).2).*1
    = tail (contextQueries st).*1 ++ [contextCacheKey (Samples.editor_at 52)].
Proof.
  intros st.
  destruct (context_cache_first_in_first_out Samples.fifty_one_extractions
              (Samples.editor_at 52)) as (context & Hrun).
  - by vm_compute.
  - by vm_compute.
  - exists context. fold st in Hrun. clearbody st. rewrite Hrun.
    cbn [fst snd contextQueries]. split; [reflexivity|].
    rewrite fmap_app. destruct (contextQueries st); reflexivity.
Defined.

(** *** Freshness *)

Definition is_update (c : Call) : bool :=
  match c with
  | UpdateCollection _ _ => true
  | _ => false
  end.

Lemma call_keeps_lastUpdated c st :
  is_update c = false → lastUpdated (call c st) = lastUpdated st.
Proof.
  assert (∀ answers st, lastUpdated (initializeCollection answers st)
                        = lastUpdated st) as Hinit.
  { by intros [] ?. }
  assert (∀ editor st, lastUpdated (extractActiveEditorContext editor st).2
                       = lastUpdated st) as Hext.
  { intros editor st0. unfold extractActiveEditorContext.
    destruct editor as [e|]; [|done]. by destruct (JS.map_has _ _). }
  assert (∀ context n w st, lastUpdated (findRelevantDocs context n w st).2
                            = lastUpdated st) as Hfind.
  { intros context n w st0. unfold findRelevantDocs.
    set (st1 := if collection st0 then st0 else _).
    assert (lastUpdated st1 = lastUpdated st0) as <-.
    { subst st1. destruct (collection st0); [done|]. apply Hinit. }
    destruct (negb (collection st1)); [done|].
    destruct (_ && _); [done|].
    by destruct (query_documents w). }
  destruct c as [answers|editor|context n w|n editor w|w delete_throws];
    intros Hc; try done; cbn [call].
  - apply Hinit.
  - apply Hext.
  - apply Hfind.
  - unfold getContextAndDocs.
    pose proof (Hext editor st) as H1.
    destruct (extractActiveEditorContext editor st) as [[context|] st1];
      cbn [snd] in H1; [|done].
    destruct (_ && _); [done|].
    pose proof (Hfind context n w st1) as H2.
    destruct (findRelevantDocs context n w st1) as [found st2].
    cbn [snd lastUpdated] in *. congruence.
Qed.

Lemma run_keeps_lastUpdated calls st :
  Forall (λ c, is_update c = false) calls →
  lastUpdated (run calls st) = lastUpdated st.
Proof.
  unfold run. revert st.
  induction calls as [|c calls IH]; intros st Hcalls; [done|].
  apply Forall_cons in Hcalls as [Hc Hcalls].
  cbn [foldl]. rewrite IH by done. by apply call_keeps_lastUpdated.
Qed.

(** As long as [updateCollection] has not been called, no query is ever
    answered from the cache: whatever was asked before, [findRelevantDocs]
    hands out what the database gives now, and [[]] when the collection cannot
    be had. *)
Theorem no_cache_hit_before_first_update (calls : list Call)
    (context : Context) (maxResults : nat) (w : World) (documents : list string) :
  Forall (λ c, is_update c = false) calls →
  query_documents w = Some documents →
  (findRelevantDocs context maxResults w (run calls new)).1
  = if collection (run calls new) || client_answers w
    then Documents documents else Documents [].
Proof.
  intros Hcalls Hquery.
  pose proof (run_keeps_lastUpdated calls new Hcalls) as Hlast.
  change (lastUpdated new) with (@None Z) in Hlast.
  generalize dependent (run calls new). intros st Hlast.
  unfold findRelevantDocs.
  set (st1 := if collection st then st else _).
  assert (lastUpdated st1 = None ∧
          collection st1 = collection st || client_answers w) as [Hl Hc].
  { subst st1. destruct (collection st) eqn:Ec; [done|].
    by destruct (client_answers w). }
  rewrite <- Hc. destruct (collection st1); [|done].
  cbn [negb]. unfold fresh. rewrite Hl, andb_false_r. by rewrite Hquery.
Qed.

Lemma no_cache_hit_before_first_update_witness :
  (findRelevantDocs (Samples.context_at 1) 5 Samples.answering
     (run Samples.thirty_one_queries new)).1
  = Documents ["Routing"; "Layouts"].
Proof.
  rewrite (no_cache_hit_before_first_update Samples.thirty_one_queries
             (Samples.context_at 1) 5 Samples.answering ["Routing"; "Layouts"]).
  - by vm_compute.
  - vm_compute. repeat constructor.
  - by vm_compute.
Defined.

Lemma map_has_store {V} limit (m : JS.Map V) key value :
  JS.map_has (store limit m key value) key = true.
Proof. unfold store. apply map_has_set. Qed.

Lemma map_get_store {V} limit (m : JS.Map V) key value :
  JS.map_get (store limit m key value) key = Some value.
Proof. unfold store. apply map_get_set. Qed.

(** Within five minutes of the last update of the collection a question asked
    again is answered from the cache: the second call gives what the first
    gave, changes nothing, and does not depend on what the database would
    answer by then. *)
Theorem repeated_query_served_from_cache (context : Context) (maxResults : nat)
    (w1 w2 : World) (st : State) (documents : list string) :
  collection st = true →
  query_documents w1 = Some documents →
  fresh st w2 = true →
  let first := findRelevantDocs context maxResults w1 st in
  findRelevantDocs context maxResults w2 first.2 = first.
Proof.
  intros Hc Hquery Hfresh. unfold findRelevantDocs.
  rewrite Hc. cbn [negb]. rewrite Hc. cbn [negb]. rewrite Hquery.
  set (cacheKey := JS.prefix 100 (queryText context) +:+ ":" +:+ pretty maxResults).
  destruct (JS.map_has (relevantDocs st) cacheKey && fresh st w1) eqn:Hhit.
  - cbn [fst snd]. rewrite !Hc. cbn [negb].
    apply andb_true_iff in Hhit as [Hhas _]. by rewrite Hhas, Hfresh.
  - cbn [fst snd collection relevantDocs]. rewrite ?Hc. cbn [negb].
    rewrite map_has_store. unfold fresh in *. cbn [lastUpdated].
    rewrite Hfresh. cbn [andb]. by rewrite map_get_store.
Qed.

Lemma repeated_query_served_from_cache_witness :
  let st := {| collection := true; relevantDocs := []; contextQueries := [];
               lastUpdated := Some 1000%Z |} in
  let asked := {| client_answers := true; now := 2000%Z;
                  query_documents := Some ["routing"] |} in
  let again := {| client_answers := false; now := 300999%Z;
                  query_documents := None |} in
  (findRelevantDocs (Samples.context_at 1) 5 again
     (findRelevantDocs (Samples.context_at 1) 5 asked st).2).1
  = Documents ["routing"].
Proof.
  intros st asked again.
  rewrite (repeated_query_served_from_cache (Samples.context_at 1) 5
             asked again st ["routing"]); by vm_compute.
Defined.

(** *** Batches *)

Lemma imap_shift_seq {A} (f : nat → string) i (l : list A) :
  imap (λ j _, f (i + j)) l = f <$> seq i (length l).
Proof.
  revert i f. induction l as [|x l IH]; intros i f; [done|].
  cbn [imap length seq fmap list_fmap]. rewrite Nat.add_0_r. f_equal.
  rewrite <- (IH (S i) f). apply imap_ext. intros j y _. unfold compose.
  f_equal. lia.
Qed.

Lemma batches_from_spec fuel i entries :
  length entries - i ≤ fuel →
  let bs := batches_from fuel i entries in
  concat (batchDocuments <$> bs) = (drop i entries).*2 ∧
  concat (batchTitles <$> bs) = (drop i entries).*1 ∧
  concat (batchIds <$> bs)
  = (λ index, "doc_" +:+ pretty index) <$> seq i (length entries - i) ∧
  Forall (λ b, 0 < length (batchDocuments b) ≤ batchSize) bs.
Proof.
  revert i. induction fuel as [|fuel IH]; intros i Hfuel; cbn [batches_from].
  - rewrite drop_ge by lia. replace (length entries - i) with 0 by lia.
    by repeat split.
  - case_bool_decide as Hi.
    2:{ rewrite drop_ge by lia. replace (length entries - i) with 0 by lia.
        by repeat split. }
    destruct (IH (i + batchSize)) as (Hdocs & Htitles & Hids & Hsizes);
      [unfold batchSize; lia|].
    cbn zeta. rewrite !fmap_cons. cbn [concat].
    rewrite Hdocs, Htitles, Hids.
    cbn [make_batch batchDocuments batchTitles batchIds].
    rewrite <- !fmap_app, <- (drop_drop entries batchSize i), !take_drop.
    repeat split.
    + rewrite (imap_shift_seq (λ index, "doc_" +:+ pretty index) i).
      rewrite <- fmap_app, length_take, length_drop. f_equal.
      destruct (decide (batchSize ≤ length entries - i)) as [Hfull|Hlast].
      * rewrite Nat.min_l by done. rewrite <- seq_app. f_equal. lia.
      * rewrite Nat.min_r by lia.
        replace (length entries - (i + batchSize)) with 0 by lia.
        cbn [seq]. by rewrite app_nil_r.
    + apply Forall_cons. split; [|done].
      cbn [make_batch batchDocuments]. rewrite length_fmap, length_take, length_drop.
      unfold batchSize. lia.
Qed.

(** The loop of [updateCollection] hands every entry of [docsData] to the
    collection exactly once and in order, numbered [doc_0], [doc_1], ... across
    the batches; no batch is empty and none holds more than a hundred
    documents, so the count reported is the number of entries. *)
Theorem batches_cover_entries (entries : list (string * string)) :
  let bs := batches entries in
  concat (batchDocuments <$> bs) = entries.*2 ∧
  concat (batchTitles <$> bs) = entries.*1 ∧
  concat (batchIds <$> bs)
  = (λ index, "doc_" +:+ pretty index) <$> seq 0 (length entries) ∧
  Forall (λ b, 0 < length (batchDocuments b) ≤ batchSize) bs.
Proof.
  intros bs. subst bs. unfold batches.
  destruct (batches_from_spec (length entries) 0 entries) as (H1 & H2 & H3 & H4);
    [lia|].
  rewrite Nat.sub_0_r in H3. by rewrite drop_0 in H1, H2.
Qed.

Lemma doc_id_inj : Inj (=) (=) (λ index : nat, "doc_" +:+ pretty index).
Proof. intros i j [=]. by apply (inj pretty). Qed.

(** No two documents of an update share an id. *)
Theorem batch_ids_distinct (entries : list (string * string)) :
  NoDup (concat (batchIds <$> batches entries)).
Proof.
  unfold batches.
  destruct (batches_from_spec (length entries) 0 entries) as (_ & _ & -> & _);
    [lia|].
  apply (NoDup_fmap_2 _), NoDup_seq.
Qed.

(** *** One cache for two kinds of result *)

Lemma prefix_short n s : String.length s ≤ n → JS.prefix n s = s.
Proof.
  unfold JS.prefix. revert n. induction s as [|c s IH]; intros n Hn.
  - by destruct n.
  - destruct n as [|n]; cbn in *; [lia|]. rewrite IH; [done|lia].
Qed.

Lemma extract_keeps editor st :
  let st' := (extractActiveEditorContext editor st).2 in
  collection st' = collection st ∧ relevantDocs st' = relevantDocs st
  ∧ lastUpdated st' = lastUpdated st.
Proof.
  unfold extractActiveEditorContext. destruct editor as [e|]; [|done].
  by destruct (JS.map_has _ _).
Qed.

Lemma find_keeps context n w st :
  collection st = true →
  let st' := (findRelevantDocs context n w st).2 in
  collection st' = true ∧ lastUpdated st' = lastUpdated st.
Proof.
  intros Hc. unfold findRelevantDocs. rewrite Hc. cbn [negb]. rewrite Hc.
  cbn [negb]. destruct (_ && _); [done|]. by destruct (query_documents w).
Qed.

(** [getContextAndDocs] and [findRelevantDocs] keep their results in the same
    [Map], the one under [combined:] followed by its key, the other under its
    key alone.  So a selection that itself starts with [combined:] meets the
    entry of the selection that follows the prefix: within five minutes of
    the last update [findRelevantDocs] then hands out what [getContextAndDocs]
    returned, and that is an object with a context and documents, not a list
    of documents, whenever [getContextAndDocs] had to build it. *)
Theorem combined_result_served_as_documents (maxResults : nat) (e : Editor)
    (w1 w2 : World) (st : State) (context context' : Context) :
  collection st = true →
  fresh st w2 = true →
  (extractActiveEditorContext (Some e) st).1 = Some context →
  queryText context' = "combined:" +:+ JS.prefix 100 (queryText context) →
  String.length (queryText context') ≤ 100 →
  let first := getContextAndDocs maxResults (Some e) w1 st in
  findRelevantDocs context' maxResults w2 first.2 = first ∧
  (JS.map_has (relevantDocs st)
     ("combined:" +:+ JS.prefix 100 (queryText context) +:+ ":" +:+ pretty maxResults)
   = false →
   ∃ found, first.1 = Combined (Some context) found).
Proof.
  intros Hc Hfresh Hcontext Hquery Hshort.
  destruct (extract_keeps (Some e) st) as (Hc1 & Hr1 & Hl1).
  unfold getContextAndDocs.
  destruct (extractActiveEditorContext (Some e) st) as [extracted st1].
  cbn [fst snd] in *. subst extracted. rewrite Hc in Hc1.
  assert (fresh st1 w2 = true) as Hfresh1 by (unfold fresh in *; by rewrite Hl1).
  set (cacheKey := "combined:" +:+ JS.prefix 100 (queryText context)
                   +:+ ":" +:+ pretty maxResults).
  assert (JS.prefix 100 (queryText context') +:+ ":" +:+ pretty maxResults
          = cacheKey) as Hkey.
  { rewrite (prefix_short _ _ Hshort), Hquery. subst cacheKey. reflexivity. }
  rewrite Hr1.
  destruct (JS.map_has (relevantDocs st) cacheKey && fresh st1 w1) eqn:Hhit.
  - apply andb_true_iff in Hhit as [Hhas _]. split.
    + cbn [fst snd]. unfold findRelevantDocs. rewrite Hc1. cbn [negb].
      rewrite Hc1. cbn [negb]. rewrite Hkey, Hr1, Hhas, Hfresh1. reflexivity.
    + intros Hno. congruence.
  - destruct (find_keeps context maxResults w1 st1 Hc1) as (Hc2 & Hl2).
    destruct (findRelevantDocs context maxResults w1 st1) as [found st2].
    cbn [fst snd] in *. split; [|by eexists].
    unfold findRelevantDocs. cbn [collection relevantDocs]. rewrite !Hc2.
    cbn [negb collection relevantDocs]. rewrite Hkey, map_has_store.
    assert (fresh {| collection := true;
                     relevantDocs := store 30 (relevantDocs st2) cacheKey
                                       (Combined (Some context) found);
                     contextQueries := contextQueries st2;
                     lastUpdated := lastUpdated st2 |} w2 = true) as ->.
    { unfold fresh in *. cbn [lastUpdated]. by rewrite Hl2. }
    cbn [andb]. by rewrite map_get_store.
Qed.

Lemma combined_result_served_as_documents_witness :
  let st := {| collection := true; relevantDocs := []; contextQueries := [];
               lastUpdated := Some 1723420700000%Z |} in
  let selection := {| fileName := "/app/page.tsx"; fileExtension := "tsx";
                      selectedText := "combined:Page";
                      surroundingCode := EmptyString; fullText := EmptyString;
                      language := "typescriptreact" |} in
  ∃ context found,
    (findRelevantDocs selection 5 Samples.answering
       (getContextAndDocs 5 (Some (Samples.editor_at 1)) Samples.answering st).2).1
    = Combined (Some context) found.
Proof.
  intros st selection.
  destruct (combined_result_served_as_documents 5 (Samples.editor_at 1)
              Samples.answering Samples.answering st
              (ContextExtractor.Build_Context
                 (ed_fileName (Samples.editor_at 1))
                 (JS.after_last_dot (ed_fileName (Samples.editor_at 1)))
                 (ed_selectedText (Samples.editor_at 1))
                 (ed_surroundingCode (Samples.editor_at 1))
                 (ed_text (Samples.editor_at 1))
                 (ed_languageId (Samples.editor_at 1)))
              selection) as [Hsame Hcombined].
  - reflexivity.
  - by vm_compute.
  - by vm_compute.
  - by vm_compute.
  - vm_compute. lia.
  - destruct Hcombined as [found Hfound]; [by vm_compute|].
    eexists _, found. rewrite Hsame. exact Hfound.
Defined.
End extractor_more.

(** ** The documentation service: shared requests and the cache *)

Section service_more.
Import DocumentationService.

(** [type || 'auto']. *)
Definition effective_type (type : option string) : string :=
  match type with
  | Some t => if JS.truthy_string t then t else "auto"
  | None => "auto"
  end.

Definition cache_key (query : string) (type : option string) : string :=
  effective_type type +:+ ":" +:+ JS.trim query.

(** What the cache holds for a key that is young enough to be served. *)
Definition cached (st : State) (cacheKey : string) (now : Z)
    : option Documentation :=
  match cache st !! cacheKey with
  | Some entry =>
      if bool_decide ((now - timestamp entry < cacheTTL)%Z)
      then Some (data entry) else None
  | None => None
  end.

Lemma trim_nonempty q : JS.trim q ≠ EmptyString → JS.truthy_string q = true.
Proof. by destruct q. Qed.

(** [getDocumentation] on a query that is not blank, by cases. *)
Lemma getDocumentation_cases q type now st :
  JS.trim q ≠ EmptyString →
  getDocumentation (Some q) type now st
  = match cached st (cache_key q type) now with
    | Some value => (Resolved value, st)
    | None =>
        match pendingRequests st !! cache_key q type with
        | Some promise => (Pending promise, st)
        | None =>
            (Pending (promises st),
             {| cache := cache st;
                pendingRequests :=
                  <[cache_key q type := promises st]> (pendingRequests st);
                begun := begun st
                         ++ [(fetcher_for (effective_type type), JS.trim q)];
                promises := S (promises st) |})
        end
    end.
Proof.
  intros Hq. unfold getDocumentation.
  rewrite (trim_nonempty q Hq), (bool_decide_eq_false_2 _ Hq). cbn [negb orb].
  reflexivity.
Qed.

Lemma pending_not_blank q type now st p st1 :
  getDocumentation (Some q) type now st = (Pending p, st1) →
  JS.trim q ≠ EmptyString.
Proof.
  unfold getDocumentation. intros Hcall Hq.
  rewrite (bool_decide_eq_true_2 _ Hq), orb_true_r in Hcall. done.
Qed.

Lemma pending_registered q type now st p st1 :
  getDocumentation (Some q) type now st = (Pending p, st1) →
  cached st (cache_key q type) now = None ∧
  cache st1 = cache st ∧
  pendingRequests st1 !! cache_key q type = Some p.
Proof.
  intros Hcall. pose proof (pending_not_blank _ _ _ _ _ _ Hcall) as Hq.
  rewrite (getDocumentation_cases q type now st Hq) in Hcall.
  destruct (cached st (cache_key q type) now) as [value|]; [done|].
  destruct (pendingRequests st !! cache_key q type) as [promise|] eqn:Hp.
  - injection Hcall as <- <-. done.
  - injection Hcall as <- <-. cbn [cache pendingRequests].
    by rewrite lookup_insert_eq.
Qed.

Lemma cached_later st cacheKey (now now' : Z) :
  (now ≤ now')%Z → cached st cacheKey now = None → cached st cacheKey now' = None.
Proof.
  unfold cached. intros Hle. destruct (cache st !! cacheKey) as [entry|]; [|done].
  case_bool_decide; [done|]. intros _. rewrite bool_decide_eq_false_2; [done|lia].
Qed.



(** When the fetcher of a request settles with a result, be it a document or
    an object with an [error] field, the result is cached: for the next hour
    the same question resolves to it at once, with no fetcher begun; from then
    on the question begins a new request. *)
Theorem settled_result_is_cached (q : string) (type : option string)
    (now settled now' : Z) (st st1 : State) (p : nat) (result : Documentation) :
  getDocumentation (Some q) type now st = (Pending p, st1) →
  let st2 := settle (cache_key q type) (Some result) settled st1 in
  pendingRequests st2 !! cache_key q type = None ∧
  ((now' - settled < cacheTTL)%Z →
     getDocumentation (Some q) type now' st2 = (Resolved result, st2)) ∧
  ((cacheTTL ≤ now' - settled)%Z →
     getDocumentation (Some q) type now' st2
     = (Pending (promises st1),
        {| cache := cache st2;
           pendingRequests := <[cache_key q type := promises st1]> (pendingRequests st2);
           begun := begun st1 ++ [(fetcher_for (effective_type type), JS.trim q)];
           promises := S (promises st1) |})).
Proof.
  intros Hcall st2.
  pose proof (pending_not_blank _ _ _ _ _ _ Hcall) as Hq.
  assert (pendingRequests st2 !! cache_key q type = None) as Hgone.
  { subst st2. cbn [settle pendingRequests]. apply lookup_delete_eq. }
  assert (cache st2 !! cache_key q type
          = Some {| data := result; timestamp := settled |}) as Hentry.
  { subst st2. cbn [settle cache]. apply lookup_insert_eq. }
  split_and!; [done| |]; intros Hage; rewrite getDocumentation_cases by done;
    unfold cached; rewrite Hentry; cbn [timestamp data].
  - by rewrite bool_decide_eq_true_2.
  - rewrite bool_decide_eq_false_2 by lia. by rewrite Hgone.
Qed.

Lemma settled_result_is_cached_witness :
  let st1 := (getDocumentation (Some "react") (Some "npm") 1000 new).2 in
  let st2 := settle "npm:react" (Some (Failed (Some "npm") "Package not found"))
               2000 st1 in
  getDocumentation (Some "react") (Some "npm") 3601999 st2
  = (Resolved (Failed (Some "npm") "Package not found"), st2).
Proof.
  intros st1 st2.
  destruct (settled_result_is_cached "react" (Some "npm") 1000 2000 3601999
              new st1 0 (Failed (Some "npm") "Package not found"))
    as (_ & Hhit & _).
  - reflexivity.
  - apply Hhit. unfold cacheTTL. lia.
Defined.

(** When the fetcher throws, nothing is cached and the request is forgotten:
    the same question asked afterwards begins a new request. *)
Theorem failed_request_is_retried (q : string) (type : option string)
    (now settled now' : Z) (st st1 : State) (p : nat) :
  getDocumentation (Some q) type now st = (Pending p, st1) →
  (now ≤ now')%Z →
  let st2 := settle (cache_key q type) None settled st1 in
  getDocumentation (Some q) type now' st2
  = (Pending (promises st1),
     {| cache := cache st;
        pendingRequests := <[cache_key q type := promises st1]> (pendingRequests st2);
        begun := begun st1 ++ [(fetcher_for (effective_type type), JS.trim q)];
        promises := S (promises st1) |}).
Proof.
  intros Hcall Hnow st2.
  pose proof (pending_not_blank _ _ _ _ _ _ Hcall) as Hq.
  destruct (pending_registered _ _ _ _ _ _ Hcall) as (Hmiss & Hcache & Hp).
  rewrite getDocumentation_cases by done.
  assert (cached st2 (cache_key q type) now' = None) as ->.
  { apply (cached_later _ _ now); [done|]. unfold cached in *.
    subst st2. cbn [settle cache]. by rewrite Hcache. }
  assert (pendingRequests st2 !! cache_key q type = None) as ->.
  { subst st2. cbn [settle pendingRequests]. apply lookup_delete_eq. }
  subst st2. cbn [settle cache begun promises]. by rewrite Hcache.
Qed.

Lemma failed_request_is_retried_witness :
  let st1 := (getDocumentation (Some "react") (Some "npm") 1000 new).2 in
  begun (getDocumentation (Some "react") (Some "npm") 3000
           (settle "npm:react" None 2000 st1)).2
  = [(Npm, "react"); (Npm, "react")].
Proof.
  intros st1.
  assert (1000 ≤ 3000)%Z as Hnow by lia.
  pose proof (failed_request_is_retried "react" (Some "npm") 1000 2000 3000
                new st1 0 eq_refl Hnow) as Hcall.
  exact (f_equal (λ r, begun r.2) Hcall).
Defined.
End service_more.

(** ** The panel: one request at a time, and a request from call to reply *)

Section panel_more.
Import WebviewPanel.

Ltac run_handler :=
  unfold handleAiQuery_begin, handleRefreshDocs_begin, handleAiQuery_resume,
    handleRefreshDocs_resume, try_catch_finally, postMessage, started,
    mbind, M_bind, read, modify, throw, mret, M_ret,
    set_isProcessing, push_history, push_posted, set_suspended, set_panel;
  cbn.

Lemma handleAiQuery_resume_suspended o st :
  suspended (handleAiQuery_resume o st).2 = suspended st.
Proof. destruct st as [[] b h ps ss], o; by run_handler. Qed.

Lemma handleRefreshDocs_resume_suspended o st :
  suspended (handleRefreshDocs_resume o st).2 = suspended st.
Proof.
  destruct st as [[] b h ps ss], o as [[r|e] [message|] [[] err]];
    by run_handler.
Qed.

(** Either nothing waits at an [await], or one invocation does and the flag
    is set. *)
Definition one_at_a_time (st : State) : Prop :=
  suspended st = [] ∨ (isProcessing st = true ∧ ∃ inv, suspended st = [inv]).

Lemma step_one_at_a_time e st : one_at_a_time st → one_at_a_time (step e st).
Proof.
  intros Hst.
  assert (isProcessing st = false → suspended st = []) as Hidle.
  { intros Hb. destruct Hst as [?|[? _]]; [done|congruence]. }
  destruct e as [query| |i o|i o| |].
  - destruct (isProcessing st) eqn:Hb.
    + rewrite (busy_call st (CallAiQuery query) _ Hb
                 (or_introl (ex_intro _ query (conj eq_refl eq_refl)))).
      unfold one_at_a_time in *. cbn [splice suspended isProcessing].
      destruct Hst as [?|[_ ?]]; [by left|by right].
    + specialize (Hidle eq_refl). destruct st as [[] b h ps ss].
      all: cbn in Hb, Hidle; subst b ss; cbn [step]; run_handler.
      * right. split; [done|]. by eexists.
      * by left.
  - destruct (isProcessing st) eqn:Hb.
    + rewrite (busy_call st CallRefreshDocs _ Hb (or_intror (conj eq_refl eq_refl))).
      unfold one_at_a_time in *. cbn [splice suspended isProcessing].
      destruct Hst as [?|[_ ?]]; [by left|by right].
    + specialize (Hidle eq_refl). destruct st as [[] b h ps ss].
      all: cbn in Hb, Hidle; subst b ss; cbn [step]; run_handler.
      * right. split; [done|]. by eexists.
      * by left.
  - cbn [step]. destruct (suspended st !! i) as [[query|]|] eqn:Hi; [|done..].
    left. rewrite handleAiQuery_resume_suspended. cbn.
    destruct Hst as [Hs|[_ [inv Hs]]]; rewrite Hs in *; [done|].
    by destruct i.
  - cbn [step]. destruct (suspended st !! i) as [[query|]|] eqn:Hi; [done| |done].
    left. rewrite handleRefreshDocs_resume_suspended. cbn.
    destruct Hst as [Hs|[_ [inv Hs]]]; rewrite Hs in *; [done|].
    by destruct i.
  - exact Hst.
  - exact Hst.
Qed.

(** Whatever is called and whenever the awaited work settles, at most one
    handler invocation waits at an [await] at any time, and while one does the
    flag is set: the bodies of [handleAiQuery] and [handleRefreshDocs] never
    run interleaved. *)
Theorem requests_one_at_a_time (events : list Event) :
  let st := run events new in
  length (suspended st) ≤ 1 ∧
  (suspended st ≠ [] → isProcessing st = true).
Proof.
  intros st.
  assert (one_at_a_time st) as Hst.
  { subst st. unfold run.
    assert (one_at_a_time new) as Hnew by (by left).
    revert Hnew. generalize new.
    induction events as [|e events IH]; intros st Hst; [done|].
    cbn [foldl]. by apply IH, step_one_at_a_time. }
  destruct Hst as [Hs|[Hb [inv Hs]]]; rewrite Hs; cbn; split; try done; lia.
Qed.

(** A question put to an open, idle panel and answered: the question and the
    response are appended to the history in this order, the webview is sent
    the processing notice and then the response, and the panel is idle
    again. *)
Theorem request_served (query response : string) (st : State) :
  panel st = true → isProcessing st = false → suspended st = [] →
  run [CallAiQuery query; SettleAiQuery 0 (Responded response)] st
  = {| panel := true; isProcessing := false;
       messageHistory := messageHistory st
         ++ [{| role := "user"; content := query |};
             {| role := "assistant"; content := response |}];
       posted := posted st
         ++ [AiResponse "Processing your query..." "processing" false;
             AiResponse response "complete" true];
       suspended := [] |}.
Proof.
  destruct st as [p b h ps ss]. cbn. intros -> -> ->.
  run_handler. by rewrite <- !(assoc_L (++)).
Qed.

Lemma request_served_witness :
  messageHistory
    (run [CreateOrShow; CallAiQuery "explain this";
          SettleAiQuery 0 (Responded "It renders a page.")] new)
  = [{| role := "user"; content := "explain this" |};
     {| role := "assistant"; content := "It renders a page." |}].
Proof.
  pose proof (request_served "explain this" "It renders a page."
                (step CreateOrShow new) eq_refl eq_refl eq_refl) as Hrun.
  exact (f_equal messageHistory Hrun).
Defined.

(** The panel is closed while a question is being worked on.  When the work
    settles, a response is still appended to the history, but neither it nor
    an error can be shown: posting throws in the [try] and again in the
    [catch], the invocation ends with that [TypeError], and the [finally]
    leaves the panel object idle. *)
Theorem panel_closed_before_reply (query : string) (o : AiOutcome) (st : State) :
  panel st = true → isProcessing st = false → suspended st = [] →
  let waiting := run [CallAiQuery query; Dispose] st in
  suspended waiting = [AiQuery query] ∧
  (handleAiQuery_resume o (set_suspended [] waiting)).1
  = inr "Cannot read properties of null (reading 'webview')" ∧
  step (SettleAiQuery 0 o) waiting
  = {| panel := false; isProcessing := false;
       messageHistory := messageHistory st
         ++ {| role := "user"; content := query |}
            :: match o with
               | Responded response =>
                   [{| role := "assistant"; content := response |}]
               | Raised _ => []
               end;
       posted := posted st
         ++ [AiResponse "Processing your query..." "processing" false];
       suspended := [] |}.
Proof.
  destruct st as [p b h ps ss]. cbn. intros -> -> ->.
  destruct o as [response|message]; run_handler;
    by rewrite <- ?(assoc_L (++)).
Qed.

Lemma panel_closed_before_reply_witness :
  let st := run [CreateOrShow; CallAiQuery "explain this"; Dispose;
                 SettleAiQuery 0 (Responded "It renders a page.")] new in
  posted st = [AiResponse "Processing your query..." "processing" false] ∧
  isProcessing st = false.
Proof.
  intros st.
  destruct (panel_closed_before_reply "explain this"
              (Responded "It renders a page.") (step CreateOrShow new)
              eq_refl eq_refl eq_refl) as (_ & _ & Hstep).
  subst st. split.
  - exact (f_equal posted Hstep).
  - exact (f_equal isProcessing Hstep).
Defined.
End panel_more.

(** ** The error boundary *)

Section boundary_more.
Import ErrorHandler.

Lemma fatal_code (code : option string) :
  isFatal (handleError code) = true →
  code = Some "CRITICAL_ERROR" ∨ code = Some "EXTENSION_FAILURE".
Proof.
  unfold handleError. cbn [isFatal]. intros Hfatal%bool_decide_eq_true.
  apply elem_of_cons in Hfatal as [->|Hfatal]; [by left|].
  apply list_elem_of_singleton in Hfatal as ->. by right.
Qed.

(** No error is both fatal and retried, and the three messages of their own
    go to errors that are not fatal: a fatal error is always reported with the
    general message. *)
Theorem fatal_errors_are_not_retried (code : option string) :
  isFatal (handleError code) = true →
  shouldRetry (handleError code) = false ∧
  userMessage (handleError code) = "An error occurred. Please try again.".
Proof. by intros [-> | ->]%fatal_code. Qed.

Lemma fatal_errors_are_not_retried_witness :
  shouldRetry (handleError (Some "CRITICAL_ERROR")) = false ∧
  userMessage (handleError (Some "CRITICAL_ERROR"))
  = "An error occurred. Please try again.".
Proof.
  apply (fatal_errors_are_not_retried (Some "CRITICAL_ERROR")). reflexivity.
Defined.

(** The [k]-th call threw something that is retried, and the user picked
    [Retry]. *)
Definition retried {V} (fn : nat → Attempt V) (picks : nat → bool) (k : nat)
    : Prop :=
  ∃ code, fn k = Throws code ∧ shouldRetry (handleError code) = true
          ∧ picks k = true.

Lemma retried_not_fatal {V} (fn : nat → Attempt V) picks k code :
  retried fn picks k → fn k = Throws code →
  isFatal (handleError code) = false ∧ shouldRetry (handleError code) = true
  ∧ picks k = true.
Proof.
  intros (code' & Hk & Hretry & Hpick) Hcode.
  rewrite Hk in Hcode. injection Hcode as ->. split_and!; [|done..].
  destruct (isFatal (handleError code)) eqn:Hfatal; [|done].
  by apply fatal_code in Hfatal as [-> | ->].
Qed.

Lemma boundary_from {V} (fn : nat → Attempt V) picks fuel k value :
  (∃ shown, boundary fuel fn picks k = Some (Some value, shown))
  ↔ ∃ n, n < fuel ∧ fn (k + n) = Returns value
         ∧ ∀ j, j < n → retried fn picks (k + j).
Proof.
  revert k. induction fuel as [|fuel IH]; intros k; cbn [boundary].
  { split; [by intros [? ?]|]. intros (n & Hn & _). lia. }
  split.
  - intros [shown Hrun]. destruct (fn k) as [v|code] eqn:Hk.
    + injection Hrun as -> _. exists 0. rewrite Nat.add_0_r.
      split_and!; [lia|done|]. intros j Hj. lia.
    + cbn zeta in Hrun. destruct (isFatal (handleError code)) eqn:Hfatal; [done|].
      destruct (shouldRetry (handleError code) && picks k) eqn:Hretry; [|done].
      apply andb_true_iff in Hretry as [Hretry Hpick].
      destruct (boundary fuel fn picks (S k)) as [[result rest]|] eqn:Hrest;
        [|done].
      injection Hrun as -> _.
      destruct (proj1 (IH (S k))) as (n & Hn & Hvalue & Hbefore); [by eexists|].
      exists (S n). split_and!; [lia| |].
      * by replace (k + S n) with (S k + n) by lia.
      * intros [|j] Hj.
        -- rewrite Nat.add_0_r. by exists code.
        -- replace (k + S j) with (S k + j) by lia. apply Hbefore. lia.
  - intros (n & Hn & Hvalue & Hbefore). destruct n as [|n].
    + rewrite Nat.add_0_r in Hvalue. rewrite Hvalue. by eexists.
    + destruct (fn k) as [v|code] eqn:Hk.
      { destruct (Hbefore 0) as (code & Hthrows & _); [lia|].
        rewrite Nat.add_0_r in Hthrows. congruence. }
      destruct (retried_not_fatal fn picks k code) as (Hfatal & Hretry & Hpick);
        [|done|].
      { specialize (Hbefore 0). rewrite Nat.add_0_r in Hbefore. apply Hbefore. lia. }
      cbn zeta. rewrite Hfatal, Hretry, Hpick. cbn [andb].
      destruct (proj2 (IH (S k))) as [shown Hrest].
      { exists n. split_and!; [lia| |].
        - by replace (S k + n) with (k + S n) by lia.
        - intros j Hj. replace (S k + j) with (k + S j) by lia.
          apply Hbefore. lia. }
      rewrite Hrest. by eexists.
Qed.

(** A command run inside the boundary resolves to a value exactly when some
    call of the wrapped function returns it and every call before that threw
    an error that is retried and was answered with [Retry]. *)
Theorem boundary_returns_first_success {V} (fn : nat → Attempt V)
    (picks : nat → bool) (fuel : nat) (value : V) :
  (∃ shown, boundary fuel fn picks 0 = Some (Some value, shown))
  ↔ ∃ n, n < fuel ∧ fn n = Returns value ∧ ∀ j, j < n → retried fn picks j.
Proof. apply (boundary_from fn picks fuel 0 value). Qed.
End boundary_more.
